(** * LavaMathTutor: the session engine of [App.tsx]

    A shallow embedding of the duplex-session logic of the tutoring client:
    the playback scheduler ([processAudioPlayback], [stopAllPlayback] and the
    audio branch of [onmessage]), the transcript reconciler (the
    [turnComplete] branch of [onmessage]) and the session lifecycle
    ([handleToggleSession], [onopen], [onclose], [onerror],
    [handleSendDrawing], [handleCropComplete], [handleFileSelect]).

    React state hooks and refs become the fields of one record [App];
    every handler is a function on that record.  Effects that leave the
    component (alerts, [source.start], [source.stop], [sendRealtimeInput],
    [session.close]) are appended to logs kept in [World].  Handlers that
    can throw return a [Result]; the embedding does not follow the
    component past an uncaught exception.

    Times (the clock of the output context, start times, durations) are
    exact rationals: the rounding of the doubles the code computes with is
    not modelled.  The statements about times are therefore kept to what
    survives rounding: comparisons, [max], sums written as the code
    computes them (one addition to the running cursor at a time), and
    values that a double holds exactly.  A handler runs to its end before
    the next event is handled. *)

From Stdlib Require Import String Ascii Bool Arith ZArith QArith Qminmax Lia Lqa List Sorted.
Import ListNotations.

(** ** JavaScript strings

    A string is a sequence of code units; the embedding keeps the code units
    below 256, so a character is an [ascii]. *)

Definition truthy (s : string) : bool := negb (String.eqb s EmptyString).

(** [WhiteSpace] and [LineTerminator] code units below 256, the characters
    [String.prototype.trim] removes: TAB, LF, VT, FF, CR, SP and NBSP. *)
Definition isWhiteSpace (c : ascii) : bool :=
  let n := nat_of_ascii c in
  (n =? 9)%nat || (n =? 10)%nat || (n =? 11)%nat || (n =? 12)%nat ||
  (n =? 13)%nat || (n =? 32)%nat || (n =? 160)%nat.

Fixpoint trimStart (l : list ascii) : list ascii :=
  match l with
  | [] => []
  | c :: r => if isWhiteSpace c then trimStart r else l
  end.

Definition trimEnd (l : list ascii) : list ascii := rev (trimStart (rev l)).

Definition trim (s : string) : string :=
  string_of_list_ascii (trimEnd (trimStart (list_ascii_of_string s))).

(** [s.split(',')[1]]: the text between the first and the second comma,
    [None] (undefined) when [s] holds no comma. *)
Definition comma : ascii := ascii_of_nat 44.

Fixpoint upToComma (s : string) : string :=
  match s with
  | EmptyString => EmptyString
  | String c r => if Ascii.eqb c comma then EmptyString else String c (upToComma r)
  end.

Fixpoint afterComma (s : string) : option string :=
  match s with
  | EmptyString => None
  | String c r => if Ascii.eqb c comma then Some r else afterComma r
  end.

Definition splitAt1 (s : string) : option string :=
  option_map upToComma (afterComma s).

(** ** types.ts *)

Inductive Speaker := USER | TUTOR.

Record TranscriptEntry := mkEntry {
  speaker : Speaker;
  text : string;
  image : option string
}.

Definition Speaker_eqb (a b : Speaker) : bool :=
  match a, b with
  | USER, USER | TUTOR, TUTOR => true
  | _, _ => false
  end.

Inductive Status := IDLE | CONNECTING | LISTENING | THINKING | SPEAKING.

(** ** Messages of the live session ([LiveServerMessage] of the SDK, the
    fields the handler reads).  A field the handler tests before use is an
    [option]; the [text] of a transcription and the [parts] of a model turn,
    which it uses untested, are taken as present. *)

Module Msg.
Record Blob := mkBlob { data : option string; mimeType : option string }.
Record Part := mkPart { inlineData : option Blob }.
Record Content := mkContent { parts : list Part }.
Record Transcription := mkTranscription { text : string }.
Record ServerContent := mkServerContent {
  inputTranscription : option Transcription;
  outputTranscription : option Transcription;
  modelTurn : option Content;
  turnComplete : bool;
  interrupted : bool
}.
Record LiveServerMessage := mkMessage { serverContent : option ServerContent }.
End Msg.

(** ** Web Audio objects *)

Record AudioBuffer := mkBuffer { bufLength : N; bufSampleRate : positive }.

(** [AudioBuffer.duration]: length in frames over the sample rate.  The
    code holds this quotient as a double; here it is the exact quotient. *)
Definition duration (b : AudioBuffer) : Q := Z.of_N (bufLength b) # bufSampleRate b.

Record ScheduledPlayback := mkScheduled { buffer : AudioBuffer; startTime : Q }.

Record AudioContext := mkContext { sampleRate : positive; contextClosed : bool }.
Record MediaStream := mkStream { tracksStopped : bool }.
Record ScriptProcessor := mkProcessor { connected : bool }.

(** An [AudioBufferSourceNode] is known by the number given to it at
    [createBufferSource]; a [LiveSession] by the number of its connection. *)
Definition SourceNode := nat.
Definition LiveSession := nat.

Record StartCall := mkStart { startNode : SourceNode; startBuffer : AudioBuffer; startWhen : Q }.

(** ** What the component does to the outside *)

Record World := mkWorld {
  alerts : list string;            (* alert(...) *)
  started : list StartCall;        (* source.start(startTime) *)
  stopCalls : list SourceNode;     (* source.stop() *)
  sentMedia : list Msg.Blob;       (* session.sendRealtimeInput({media}) *)
  closeCalls : list LiveSession;   (* session.close() *)
  nodesCreated : nat               (* createBufferSource() calls so far *)
}.

(** ** The component: state hooks, refs, and the transcript constant the
    session callbacks closed over *)

Record App := mkApp {
  isSessionActive : bool;
  status : Status;
  transcript : list TranscriptEntry;
  sessionPromiseRef : option LiveSession;
  inputAudioContextRef : option AudioContext;
  outputAudioContextRef : option AudioContext;
  mediaStreamRef : option MediaStream;
  scriptProcessorRef : option ScriptProcessor;
  userTranscriptionRef : string;
  modelTranscriptionRef : string;
  audioPlaybackQueueRef : list ScheduledPlayback;
  nextStartTimeRef : Q;
  audioSourcesRef : list SourceNode;
  closureTranscript : list TranscriptEntry;
  world : World
}.

Definition initialWorld : World := mkWorld [] [] [] [] [] 0.

Definition initialApp : App :=
  mkApp false IDLE [] None None None None None EmptyString EmptyString [] 0%Q [] [] initialWorld.

(** Field updates. *)

Definition setIsSessionActive (v : bool) (s : App) : App :=
  mkApp v (status s) (transcript s) (sessionPromiseRef s) (inputAudioContextRef s)
    (outputAudioContextRef s) (mediaStreamRef s) (scriptProcessorRef s)
    (userTranscriptionRef s) (modelTranscriptionRef s) (audioPlaybackQueueRef s)
    (nextStartTimeRef s) (audioSourcesRef s) (closureTranscript s) (world s).

Definition setStatus (v : Status) (s : App) : App :=
  mkApp (isSessionActive s) v (transcript s) (sessionPromiseRef s) (inputAudioContextRef s)
    (outputAudioContextRef s) (mediaStreamRef s) (scriptProcessorRef s)
    (userTranscriptionRef s) (modelTranscriptionRef s) (audioPlaybackQueueRef s)
    (nextStartTimeRef s) (audioSourcesRef s) (closureTranscript s) (world s).

Definition putTranscript (v : list TranscriptEntry) (s : App) : App :=
  mkApp (isSessionActive s) (status s) v (sessionPromiseRef s) (inputAudioContextRef s)
    (outputAudioContextRef s) (mediaStreamRef s) (scriptProcessorRef s)
    (userTranscriptionRef s) (modelTranscriptionRef s) (audioPlaybackQueueRef s)
    (nextStartTimeRef s) (audioSourcesRef s) (closureTranscript s) (world s).

Definition putSessionPromise (v : option LiveSession) (s : App) : App :=
  mkApp (isSessionActive s) (status s) (transcript s) v (inputAudioContextRef s)
    (outputAudioContextRef s) (mediaStreamRef s) (scriptProcessorRef s)
    (userTranscriptionRef s) (modelTranscriptionRef s) (audioPlaybackQueueRef s)
    (nextStartTimeRef s) (audioSourcesRef s) (closureTranscript s) (world s).

Definition putInputContext (v : option AudioContext) (s : App) : App :=
  mkApp (isSessionActive s) (status s) (transcript s) (sessionPromiseRef s) v
    (outputAudioContextRef s) (mediaStreamRef s) (scriptProcessorRef s)
    (userTranscriptionRef s) (modelTranscriptionRef s) (audioPlaybackQueueRef s)
    (nextStartTimeRef s) (audioSourcesRef s) (closureTranscript s) (world s).

Definition putOutputContext (v : option AudioContext) (s : App) : App :=
  mkApp (isSessionActive s) (status s) (transcript s) (sessionPromiseRef s)
    (inputAudioContextRef s) v (mediaStreamRef s) (scriptProcessorRef s)
    (userTranscriptionRef s) (modelTranscriptionRef s) (audioPlaybackQueueRef s)
    (nextStartTimeRef s) (audioSourcesRef s) (closureTranscript s) (world s).

Definition putMediaStream (v : option MediaStream) (s : App) : App :=
  mkApp (isSessionActive s) (status s) (transcript s) (sessionPromiseRef s)
    (inputAudioContextRef s) (outputAudioContextRef s) v (scriptProcessorRef s)
    (userTranscriptionRef s) (modelTranscriptionRef s) (audioPlaybackQueueRef s)
    (nextStartTimeRef s) (audioSourcesRef s) (closureTranscript s) (world s).

Definition putScriptProcessor (v : option ScriptProcessor) (s : App) : App :=
  mkApp (isSessionActive s) (status s) (transcript s) (sessionPromiseRef s)
    (inputAudioContextRef s) (outputAudioContextRef s) (mediaStreamRef s) v
    (userTranscriptionRef s) (modelTranscriptionRef s) (audioPlaybackQueueRef s)
    (nextStartTimeRef s) (audioSourcesRef s) (closureTranscript s) (world s).

Definition putUserTranscription (v : string) (s : App) : App :=
  mkApp (isSessionActive s) (status s) (transcript s) (sessionPromiseRef s)
    (inputAudioContextRef s) (outputAudioContextRef s) (mediaStreamRef s)
    (scriptProcessorRef s) v (modelTranscriptionRef s) (audioPlaybackQueueRef s)
    (nextStartTimeRef s) (audioSourcesRef s) (closureTranscript s) (world s).

Definition putModelTranscription (v : string) (s : App) : App :=
  mkApp (isSessionActive s) (status s) (transcript s) (sessionPromiseRef s)
    (inputAudioContextRef s) (outputAudioContextRef s) (mediaStreamRef s)
    (scriptProcessorRef s) (userTranscriptionRef s) v (audioPlaybackQueueRef s)
    (nextStartTimeRef s) (audioSourcesRef s) (closureTranscript s) (world s).

Definition putQueue (v : list ScheduledPlayback) (s : App) : App :=
  mkApp (isSessionActive s) (status s) (transcript s) (sessionPromiseRef s)
    (inputAudioContextRef s) (outputAudioContextRef s) (mediaStreamRef s)
    (scriptProcessorRef s) (userTranscriptionRef s) (modelTranscriptionRef s) v
    (nextStartTimeRef s) (audioSourcesRef s) (closureTranscript s) (world s).

Definition putNextStartTime (v : Q) (s : App) : App :=
  mkApp (isSessionActive s) (status s) (transcript s) (sessionPromiseRef s)
    (inputAudioContextRef s) (outputAudioContextRef s) (mediaStreamRef s)
    (scriptProcessorRef s) (userTranscriptionRef s) (modelTranscriptionRef s)
    (audioPlaybackQueueRef s) v (audioSourcesRef s) (closureTranscript s) (world s).

Definition putSources (v : list SourceNode) (s : App) : App :=
  mkApp (isSessionActive s) (status s) (transcript s) (sessionPromiseRef s)
    (inputAudioContextRef s) (outputAudioContextRef s) (mediaStreamRef s)
    (scriptProcessorRef s) (userTranscriptionRef s) (modelTranscriptionRef s)
    (audioPlaybackQueueRef s) (nextStartTimeRef s) v (closureTranscript s) (world s).

Definition putClosureTranscript (v : list TranscriptEntry) (s : App) : App :=
  mkApp (isSessionActive s) (status s) (transcript s) (sessionPromiseRef s)
    (inputAudioContextRef s) (outputAudioContextRef s) (mediaStreamRef s)
    (scriptProcessorRef s) (userTranscriptionRef s) (modelTranscriptionRef s)
    (audioPlaybackQueueRef s) (nextStartTimeRef s) (audioSourcesRef s) v (world s).

Definition putWorld (v : World) (s : App) : App :=
  mkApp (isSessionActive s) (status s) (transcript s) (sessionPromiseRef s)
    (inputAudioContextRef s) (outputAudioContextRef s) (mediaStreamRef s)
    (scriptProcessorRef s) (userTranscriptionRef s) (modelTranscriptionRef s)
    (audioPlaybackQueueRef s) (nextStartTimeRef s) (audioSourcesRef s)
    (closureTranscript s) v.

(** Effects on the outside. *)

Definition alert (m : string) (s : App) : App :=
  let w := world s in
  putWorld (mkWorld (alerts w ++ [m]) (started w) (stopCalls w) (sentMedia w)
              (closeCalls w) (nodesCreated w)) s.

Definition sourceStart (b : AudioBuffer) (t : Q) (s : App) : App :=
  let w := world s in
  putWorld (mkWorld (alerts w) (started w ++ [mkStart (nodesCreated w) b t]) (stopCalls w)
              (sentMedia w) (closeCalls w) (S (nodesCreated w))) s.

Definition sourceStop (n : SourceNode) (s : App) : App :=
  let w := world s in
  putWorld (mkWorld (alerts w) (started w) (stopCalls w ++ [n]) (sentMedia w)
              (closeCalls w) (nodesCreated w)) s.

Definition sendRealtimeInput (m : Msg.Blob) (s : App) : App :=
  let w := world s in
  putWorld (mkWorld (alerts w) (started w) (stopCalls w) (sentMedia w ++ [m])
              (closeCalls w) (nodesCreated w)) s.

Definition sessionClose (h : LiveSession) (s : App) : App :=
  let w := world s in
  putWorld (mkWorld (alerts w) (started w) (stopCalls w) (sentMedia w)
              (closeCalls w ++ [h]) (nodesCreated w)) s.

(** Exceptions. *)

Inductive Exception := TypeError.

Inductive Result (A : Type) :=
| Ok (a : A)
| Throw (e : Exception).

Arguments Ok {A} a.
Arguments Throw {A} e.

Definition bind {A B : Type} (r : Result A) (k : A -> Result B) : Result B :=
  match r with
  | Ok a => k a
  | Throw e => Throw e
  end.

Notation "x <- r ;; k" := (bind r (fun x => k))
  (at level 61, r at next level, right associativity).

(** ** Playback scheduler *)

(** The loop of [processAudioPlayback]: [shift()] the head of the queue,
    create a source for it, start it at its [startTime] and add it to the
    set of live sources. *)
Fixpoint dispatchQueue (q : list ScheduledPlayback) (s : App) : App :=
  match q with
  | [] => s
  | item :: rest =>
      let s1 := putQueue rest s in
      let source := nodesCreated (world s1) in
      let s2 := sourceStart (buffer item) (startTime item) s1 in
      dispatchQueue rest (putSources (audioSourcesRef s2 ++ [source]) s2)
  end.

Definition processAudioPlayback (s : App) : App :=
  match outputAudioContextRef s with
  | None => s
  | Some _ => dispatchQueue (audioPlaybackQueueRef s) s
  end.

Definition stopAllPlayback (s : App) : App :=
  let s1 := fold_left (fun acc source => sourceStop source acc) (audioSourcesRef s) s in
  putNextStartTime 0%Q (putQueue [] (putSources [] s1)).

(** The ['ended'] listener of a source. *)
Definition endedListener (source : SourceNode) (s : App) : App :=
  putSources (filter (fun n => negb (Nat.eqb n source)) (audioSourcesRef s)) s.

(** ** Transcript reconciler *)

(** [transcript[transcript.length - 1]], undefined on the empty array. *)
Definition lastEntry (l : list TranscriptEntry) : option TranscriptEntry :=
  nth_error l (List.length l - 1).

(** [lastEntry?.speaker === Speaker.USER && lastEntry.image && !lastEntry.text] *)
Definition imageOnlyUserEntry (e : option TranscriptEntry) : bool :=
  match e with
  | None => false
  | Some e =>
      Speaker_eqb (speaker e) USER
      && match image e with Some i => truthy i | None => false end
      && negb (truthy (text e))
  end.

(** The updater [prev => { const updated = [...prev];
    updated[updated.length - 1].text = fullUserInput; return updated; }].
    On the empty array [updated[-1]] is undefined and the assignment
    throws. *)
Fixpoint setLastText (t : string) (prev : list TranscriptEntry)
  : Result (list TranscriptEntry) :=
  match prev with
  | [] => Throw TypeError
  | e :: rest =>
      match rest with
      | [] => Ok [mkEntry (speaker e) t (image e)]
      | _ :: _ => updated <- setLastText t rest ;; Ok (e :: updated)
      end
  end.

(** The branch taken at [turnComplete]: the [lastEntry] it tests is read
    from the [transcript] constant in the closure of the callback. *)
Definition mergeBranch (s : App) : bool :=
  imageOnlyUserEntry (lastEntry (closureTranscript s))
  && truthy (trim (userTranscriptionRef s)).

Definition tutorEntries (fullModelOutput : string) : list TranscriptEntry :=
  if truthy fullModelOutput then [mkEntry TUTOR fullModelOutput None] else [].

Definition userEntries (fullUserInput : string) : list TranscriptEntry :=
  if truthy fullUserInput then [mkEntry USER fullUserInput None] else [].

Definition appendEntries (newEntries : list TranscriptEntry) (s : App) : App :=
  if (0 <? List.length newEntries)%nat
  then putTranscript (transcript s ++ newEntries) s
  else s.

Definition finishTurn (s : App) : App :=
  setStatus LISTENING (putModelTranscription EmptyString (putUserTranscription EmptyString s)).

Definition commitTurn (s : App) : Result App :=
  let fullUserInput := trim (userTranscriptionRef s) in
  let fullModelOutput := trim (modelTranscriptionRef s) in
  if mergeBranch s then
    updated <- setLastText fullUserInput (transcript s) ;;
    Ok (finishTurn (appendEntries (tutorEntries fullModelOutput) (putTranscript updated s)))
  else
    Ok (finishTurn (appendEntries (userEntries fullUserInput ++ tutorEntries fullModelOutput) s)).

(** ** [onmessage] *)

Section Engine.

(** [decodeAudioData(decode(data), ctx, 24000, 1)] of [services/audioUtils],
    taken as a parameter: the buffer decoded from the
    base64 payload. *)
Variable decodeAudioData : string -> AudioBuffer.

(** [modelTurn?.parts[0]?.inlineData?.data] when it is truthy. *)
Definition audioPayload (modelTurn : option Msg.Content) : option string :=
  match modelTurn with
  | None => None
  | Some c =>
      match Msg.parts c with
      | [] => None
      | p :: _ =>
          match Msg.inlineData p with
          | None => None
          | Some b =>
              match Msg.data b with
              | None => None
              | Some d => if truthy d then Some d else None
              end
          end
      end
  end.

(** Lines 202-208: the enqueue of a decoded buffer at clock reading
    [currentTime]. *)
Definition enqueue (currentTime : Q) (audioBuffer : AudioBuffer) (s : App) : App :=
  let s1 := putNextStartTime (Qmax (nextStartTimeRef s) currentTime) s in
  let s2 := putQueue (audioPlaybackQueueRef s1
                        ++ [mkScheduled audioBuffer (nextStartTimeRef s1)]) s1 in
  let s3 := putNextStartTime (nextStartTimeRef s2 + duration audioBuffer)%Q s2 in
  processAudioPlayback s3.

Definition audioStep (currentTime : Q) (modelTurn : option Msg.Content) (s : App)
  : Result App :=
  match audioPayload modelTurn with
  | Some d =>
      let s1 := setStatus SPEAKING s in
      match outputAudioContextRef s1 with
      | None => Throw TypeError
      | Some _ => Ok (enqueue currentTime (decodeAudioData d) s1)
      end
  | None =>
      match modelTurn with
      | None => Ok (setStatus THINKING s)
      | Some _ => Ok (setStatus LISTENING s)
      end
  end.

Definition accumulate (sc : Msg.ServerContent) (s : App) : App :=
  let s1 := match Msg.inputTranscription sc with
            | Some t => putUserTranscription (userTranscriptionRef s ++ Msg.text t)%string s
            | None => s
            end in
  match Msg.outputTranscription sc with
  | Some t => putModelTranscription (modelTranscriptionRef s1 ++ Msg.text t)%string s1
  | None => s1
  end.

Definition onmessage (currentTime : Q) (message : Msg.LiveServerMessage) (s : App)
  : Result App :=
  match Msg.serverContent message with
  | None => Ok s
  | Some sc =>
      let s1 := accumulate sc s in
      let s2 := if Msg.interrupted sc then stopAllPlayback s1 else s1 in
      s3 <- audioStep currentTime (Msg.modelTurn sc) s2 ;;
      if Msg.turnComplete sc then commitTurn s3 else Ok s3
  end.

(** ** Session lifecycle *)

Definition stopTracks (m : MediaStream) : MediaStream := mkStream true.
Definition disconnect (p : ScriptProcessor) : ScriptProcessor := mkProcessor false.
Definition closeContext (c : AudioContext) : AudioContext := mkContext (sampleRate c) true.

Definition onopen (s : App) : Result App :=
  let s1 := setStatus LISTENING (setIsSessionActive true s) in
  match inputAudioContextRef s1 with
  | None => Throw TypeError
  | Some _ => Ok (putScriptProcessor (Some (mkProcessor true)) s1)
  end.

Definition onclose (s : App) : App :=
  let s1 := setStatus IDLE (setIsSessionActive false s) in
  let s2 := putMediaStream (option_map stopTracks (mediaStreamRef s1)) s1 in
  let s3 := putScriptProcessor (option_map disconnect (scriptProcessorRef s2)) s2 in
  let s4 := putInputContext (option_map closeContext (inputAudioContextRef s3)) s3 in
  let s5 := putOutputContext (option_map closeContext (outputAudioContextRef s4)) s4 in
  stopAllPlayback (putSessionPromise None s5).

Definition networkErrorNotice : string :=
  "A network error occurred. This could be due to a missing or invalid API key, or a problem with your internet connection. Please check your setup and try again.".

Definition onerror (s : App) : App :=
  stopAllPlayback (setStatus IDLE (setIsSessionActive false (alert networkErrorNotice s))).

(** [handleToggleSession], the branch taken while [isSessionActive]. *)
Definition stopBranch (s : App) : App :=
  match sessionPromiseRef s with
  | Some session => sessionClose session s
  | None => s
  end.

(** The first version of the component exports the transcript before it
    asks the session to close.  Of [handleEmailTranscript] the embedding
    keeps the early return and the notice; the file download and the mail
    link leave no trace in the component. *)
Definition exportNotice : string :=
  "Transcript has been downloaded. Please attach the downloaded HTML file to your email.".

Definition handleEmailTranscript (s : App) : App :=
  if (List.length (transcript s) =? 0)%nat then s else alert exportNotice s.

Definition stopBranchWithExport (s : App) : App :=
  stopBranch (if (0 <? List.length (transcript s))%nat then handleEmailTranscript s else s).

Definition startFailedNotice : string :=
  "Could not start session. Please ensure you have given microphone permissions.".

(** [handleToggleSession], the branch taken otherwise.  [microphone] is what
    [getUserMedia] resolves to ([None]: it rejects); [session] names the
    connection [ai.live.connect] opens.  The callbacks given to [connect]
    close over the [transcript] constant of the render the handler belongs
    to, that is the transcript as it is when the button is pressed. *)
Definition startBranch (microphone : option MediaStream) (session : LiveSession) (s : App)
  : App :=
  let s1 := putTranscript [] (setStatus CONNECTING s) in
  match microphone with
  | None => setStatus IDLE (alert startFailedNotice s1)
  | Some stream =>
      let s2 := putMediaStream (Some stream) s1 in
      let s3 := putInputContext (Some (mkContext 16000 false)) s2 in
      let s4 := putOutputContext (Some (mkContext 24000 false)) s3 in
      putClosureTranscript (transcript s) (putSessionPromise (Some session) s4)
  end.

Definition handleToggleSession (microphone : option MediaStream) (session : LiveSession)
  (s : App) : App :=
  if isSessionActive s then stopBranch s else startBranch microphone session s.

(** [handleToggleSession] of the first version. *)
Definition handleToggleSessionWithExport (microphone : option MediaStream)
  (session : LiveSession) (s : App) : App :=
  if isSessionActive s then stopBranchWithExport s else startBranch microphone session s.

(** ** Sending an image *)

Definition imageEntry (imageDataUrl : string) : TranscriptEntry :=
  mkEntry USER EmptyString (Some imageDataUrl).

(** The body shared by [handleSendDrawing] and [handleCropComplete], which
    differ in the wording of their notices only.  [sendThrows] tells whether
    awaiting the session or [sendRealtimeInput] throws. *)
Definition sendImageData (guardNotice errorNotice : string) (imageDataUrl : string)
  (sendThrows : bool) (s : App) : App :=
  match sessionPromiseRef s with
  | None => alert guardNotice s
  | Some _ =>
      let s1 := putTranscript (transcript s ++ [imageEntry imageDataUrl]) s in
      match splitAt1 imageDataUrl with
      | Some base64Data =>
          if truthy base64Data && negb sendThrows
          then sendRealtimeInput (Msg.mkBlob (Some base64Data) (Some "image/png"%string)) s1
          else alert errorNotice s1
      | None => alert errorNotice s1
      end
  end.

Definition handleSendDrawing : string -> bool -> App -> App :=
  sendImageData "Please start the session before sending a drawing."
                "There was an error sending the drawing.".

Definition handleCropComplete : string -> bool -> App -> App :=
  sendImageData "Please start the session before sending a cropped image."
                "There was an error sending the cropped image.".

(** [handleFileSelect] of the first version of the component, which sends
    the file as it is read.  [reader.onload] appends the entry and sends;
    when the session ref is null by then, the call on the awaited [null]
    throws and the handler raises its notice.  [base64Data] is what
    [blobToBase64(file)] resolves to. *)
Definition readerOnload (fileType imageDataUrl base64Data : string) (sendThrows : bool)
  (s : App) : App :=
  let s1 := putTranscript (transcript s ++ [imageEntry imageDataUrl]) s in
  match sessionPromiseRef s1 with
  | None => alert "There was an error sending the image." s1
  | Some _ =>
      if sendThrows then alert "There was an error sending the image." s1
      else sendRealtimeInput (Msg.mkBlob (Some base64Data) (Some fileType)) s1
  end.

Definition readerOnerror (s : App) : App := alert "Failed to read image file." s.

(** The guards of [handleFileSelect], followed by the reader callback with
    nothing handled in between.  [fileType] is [file.type]; [readResult] is
    the data URL the reader loads ([None]: the reader fails). *)
Definition handleFileSelect (fileType : string) (readResult : option string)
  (base64Data : string) (sendThrows : bool) (s : App) : App :=
  if negb (String.prefix "image/" fileType) then alert "Please select an image file." s
  else
    match sessionPromiseRef s with
    | None => alert "Please start the session before sending an image." s
    | Some _ =>
        match readResult with
        | None => readerOnerror s
        | Some imageDataUrl => readerOnload fileType imageDataUrl base64Data sendThrows s
        end
    end.

(** ** Events *)

Inductive Event :=
| EvToggle (microphone : option MediaStream) (session : LiveSession)
| EvOpen
| EvMessage (currentTime : Q) (message : Msg.LiveServerMessage)
| EvClose
| EvError
| EvSendDrawing (imageDataUrl : string) (sendThrows : bool)
| EvCropComplete (imageDataUrl : string) (sendThrows : bool)
| EvEnded (source : SourceNode)
| EvToggleWithExport (microphone : option MediaStream) (session : LiveSession)
| EvFileSelect (fileType : string) (readResult : option string) (base64Data : string)
    (sendThrows : bool).

Definition step (s : App) (e : Event) : Result App :=
  match e with
  | EvToggle microphone session => Ok (handleToggleSession microphone session s)
  | EvOpen => onopen s
  | EvMessage currentTime message => onmessage currentTime message s
  | EvClose => Ok (onclose s)
  | EvError => Ok (onerror s)
  | EvSendDrawing url sendThrows => Ok (handleSendDrawing url sendThrows s)
  | EvCropComplete url sendThrows => Ok (handleCropComplete url sendThrows s)
  | EvEnded source => Ok (endedListener source s)
  | EvToggleWithExport microphone session =>
      Ok (handleToggleSessionWithExport microphone session s)
  | EvFileSelect fileType readResult base64Data sendThrows =>
      Ok (handleFileSelect fileType readResult base64Data sendThrows s)
  end.

Fixpoint run (s : App) (events : list Event) : Result App :=
  match events with
  | [] => Ok s
  | e :: rest => s' <- step s e ;; run s' rest
  end.

End Engine.

(** ** Observations used in the statements *)

(** The start times given out so far, in arrival order: those of the
    sources already started, then those still waiting in the queue. *)
Definition assigned (s : App) : list Q :=
  map startWhen (started (world s)) ++ map startTime (audioPlaybackQueueRef s).

(** A run of enqueues, each with the clock reading at its arrival. *)
Fixpoint enqueueAll (arrivals : list (Q * AudioBuffer)) (s : App) : App :=
  match arrivals with
  | [] => s
  | (currentTime, audioBuffer) :: rest => enqueueAll rest (enqueue currentTime audioBuffer s)
  end.

(** Buffers of one second and of half a second at the output rate. *)
Definition oneSecond : AudioBuffer := mkBuffer 24000 24000.
Definition halfSecond : AudioBuffer := mkBuffer 12000 24000.

(** The world after [source.stop()] on each source of [l]. *)
Definition withStops (l : list SourceNode) (w : World) : World :=
  mkWorld (alerts w) (started w) (stopCalls w ++ l) (sentMedia w) (closeCalls w)
    (nodesCreated w).

(** Events whose handling enqueues a buffer: a message with an audio
    payload. *)
Definition enqueues (e : Event) : bool :=
  match e with
  | EvMessage _ message =>
      match Msg.serverContent message with
      | Some sc =>
          match audioPayload (Msg.modelTurn sc) with
          | Some _ => true
          | None => false
          end
      | None => false
      end
  | _ => false
  end.

(** A session that has been started and is playing one buffer of a second. *)
Definition connectedApp : App := startBranch (Some (mkStream false)) 1%nat initialApp.
Definition playingApp : App := enqueue 0 oneSecond connectedApp.

(** The number of accumulators that are non-empty once trimmed. *)
Definition nonEmptyCount (s : App) : nat :=
  (if truthy (trim (userTranscriptionRef s)) then 1 else 0)
  + (if truthy (trim (modelTranscriptionRef s)) then 1 else 0).

(** A message that carries transcription fragments only, with or without
    the [turnComplete] flag. *)
Definition transcriptionMessage (user tutor : option string) (turnComplete : bool)
  : Msg.LiveServerMessage :=
  Msg.mkMessage (Some (Msg.mkServerContent
                         (option_map Msg.mkTranscription user)
                         (option_map Msg.mkTranscription tutor)
                         None turnComplete false)).

Definition drawingUrl : string := "data:image/png;base64,AAAA".

(** The first session of the component: start, open, send a drawing, then
    hear the user ask about it. *)
Definition firstSessionWithImage : list Event :=
  [ EvToggle (Some (mkStream false)) 1%nat;
    EvOpen;
    EvSendDrawing drawingUrl false;
    EvMessage 0 (transcriptionMessage (Some "what is this"%string) None false) ].

(** Projections of the state used to say what a handler leaves alone. *)
Definition sessionView (s : App) :=
  (isSessionActive s, sessionPromiseRef s,
   (inputAudioContextRef s, outputAudioContextRef s, mediaStreamRef s, scriptProcessorRef s)).

Definition reconcilerView (s : App) :=
  (transcript s, closureTranscript s, userTranscriptionRef s, modelTranscriptionRef s).

Definition outsideView (s : App) :=
  (alerts (world s), stopCalls (world s), sentMedia (world s), closeCalls (world s)).

(** The status the audio branch of [onmessage] sets, and the one the whole
    handler ends with. *)
Definition statusOfTurn (modelTurn : option Msg.Content) : Status :=
  match audioPayload modelTurn with
  | Some _ => SPEAKING
  | None => match modelTurn with None => THINKING | Some _ => LISTENING end
  end.

Definition statusAfter (sc : Msg.ServerContent) : Status :=
  if Msg.turnComplete sc then LISTENING else statusOfTurn (Msg.modelTurn sc).

(** A message that carries the interruption signal and nothing else. *)
Definition interruptionMessage : Msg.LiveServerMessage :=
  Msg.mkMessage (Some (Msg.mkServerContent None None None false true)).

(** What the stop of an active session does to the state: [stopBranch], the
    branch of [handleToggleSession] taken while [isSessionActive], followed
    by the [onclose] that the close it asks for brings.  This composes the
    two pieces of code and is not a handler of the component: the guard
    stays in [handleToggleSession], which runs [startBranch] when no session
    is active, and the component has no other stop control. *)
Definition stopSession (s : App) : App := onclose (stopBranch s).

Definition stopSessionWithExport (s : App) : App := onclose (stopBranchWithExport s).

(** The state with the log of notices left out. *)
Definition withoutAlerts (s : App) : App :=
  let w := world s in
  putWorld (mkWorld [] (started w) (stopCalls w) (sentMedia w) (closeCalls w)
              (nodesCreated w)) s.

(** A session at rest: no handle, nothing playing or waiting to play, the
    cursor at zero, and whatever capture objects exist shut down. *)
Definition tornDown (s : App) : Prop :=
  match mediaStreamRef s with Some m => tracksStopped m = true | None => True end
  /\ match scriptProcessorRef s with Some p => connected p = false | None => True end
  /\ match inputAudioContextRef s with Some c => contextClosed c = true | None => True end
  /\ match outputAudioContextRef s with Some c => contextClosed c = true | None => True end.

Definition idle (s : App) : Prop :=
  status s = IDLE
  /\ isSessionActive s = false
  /\ sessionPromiseRef s = None
  /\ audioPlaybackQueueRef s = []
  /\ audioSourcesRef s = []
  /\ nextStartTimeRef s = 0%Q
  /\ tornDown s.

(** Events that start a session: the button pressed while no session is
    active. *)
Definition startsSession (s : App) (e : Event) : bool :=
  match e with
  | EvToggle _ _ | EvToggleWithExport _ _ => negb (isSessionActive s)
  | _ => false
  end.

(** Events that commit a turn, and the transcription text an event brings
    for each speaker. *)
Definition isCommit (e : Event) : bool :=
  match e with
  | EvMessage _ message =>
      match Msg.serverContent message with
      | Some sc => Msg.turnComplete sc
      | None => false
      end
  | _ => false
  end.

Definition userFragment (e : Event) : string :=
  match e with
  | EvMessage _ message =>
      match Msg.serverContent message with
      | Some sc =>
          match Msg.inputTranscription sc with
          | Some t => Msg.text t
          | None => EmptyString
          end
      | None => EmptyString
      end
  | _ => EmptyString
  end.

Definition tutorFragment (e : Event) : string :=
  match e with
  | EvMessage _ message =>
      match Msg.serverContent message with
      | Some sc =>
          match Msg.outputTranscription sc with
          | Some t => Msg.text t
          | None => EmptyString
          end
      | None => EmptyString
      end
  | _ => EmptyString
  end.

(** Events at which a session ends or another begins: the close and error
    callbacks and a press of the session button. *)
Definition sessionBoundary (e : Event) : bool :=
  match e with
  | EvClose | EvError | EvToggle _ _ | EvToggleWithExport _ _ => true
  | _ => false
  end.

(** An accumulator is inside an open turn of [events]: a message brought
    text for it, and since then the turn has not been committed and its
    session has gone on, with no commit and no session boundary after that
    message. *)
Definition openTurn (fragment : Event -> string) (events : list Event) : Prop :=
  exists before e after,
    events = before ++ e :: after
    /\ truthy (fragment e) = true
    /\ isCommit e = false
    /\ forallb (fun e' => negb (isCommit e' || sessionBoundary e')) after = true.

(** The events handled since the last commit, all of them when no turn has
    been committed yet. *)
Definition sinceCommit (events : list Event) : list Event :=
  fold_left (fun pending e => if isCommit e then [] else pending ++ [e]) events [].

(** A session closed in the middle of a turn: the user is heard, and the
    close comes before the commit. *)
Definition closedMidTurn : list Event :=
  [ EvToggle (Some (mkStream false)) 1%nat;
    EvOpen;
    EvMessage 0 (transcriptionMessage (Some "2+"%string) None false);
    EvClose ].

(** The same, followed by the start of a new session. *)
Definition cutTurn : list Event :=
  closedMidTurn ++ [ EvToggle (Some (mkStream false)) 2%nat ].

Definition afterCutTurn : App :=
  Eval vm_compute in
    match run (fun _ => oneSecond) initialApp cutTurn with
    | Ok s => s
    | Throw _ => initialApp
    end.

(** A second session, started after a first one that ended on an image-only
    entry: the tutor greets, then the user is heard. *)
Definition secondSessionAfterImage : list Event :=
  [ EvToggle (Some (mkStream false)) 1%nat;
    EvOpen;
    EvSendDrawing drawingUrl false;
    EvClose;
    EvToggle (Some (mkStream false)) 2%nat;
    EvOpen;
    EvMessage 0 (transcriptionMessage None (Some "hello"%string) true);
    EvMessage 0 (transcriptionMessage (Some "hi"%string) None false) ].

(** A message whose model turn carries one audio part. *)
Definition audioMessage (d : string) : Msg.LiveServerMessage :=
  Msg.mkMessage
    (Some (Msg.mkServerContent None None
             (Some (Msg.mkContent
                      [Msg.mkPart (Some (Msg.mkBlob (Some d) (Some "audio/pcm;rate=24000"%string)))]))
             false false)).

(** The message that ends a turn and brings nothing else. *)
Definition turnCompleteMessage : Msg.LiveServerMessage :=
  transcriptionMessage None None true.

(** A session in which a drawing is sent and nothing is said, stopped by the
    button; then a second session in which the user is heard. *)
Definition newSessionAfterImage : list Event :=
  [ EvToggle (Some (mkStream false)) 1%nat;
    EvOpen;
    EvSendDrawing drawingUrl false;
    EvToggle None 1%nat;
    EvClose;
    EvToggle (Some (mkStream false)) 2%nat;
    EvOpen;
    EvMessage 0 (transcriptionMessage (Some "hi"%string) None false) ].

(** A session under way: started and opened, a drawing sent, one buffer
    playing. *)
Definition sessionUnderWay : list Event :=
  [ EvToggle (Some (mkStream false)) 1%nat;
    EvOpen;
    EvSendDrawing drawingUrl false;
    EvMessage 0 (audioMessage "AAAA") ].

Definition activeApp : App :=
  Eval vm_compute in
    match run (fun _ => oneSecond) initialApp sessionUnderWay with
    | Ok s => s
    | Throw _ => initialApp
    end.

(** That session stopped: the button is pressed and the close comes back. *)
Definition stoppedApp : App :=
  Eval vm_compute in onclose (handleToggleSession None 1%nat activeApp).

(** ** Further observations *)

(** The [source.start] calls the loop of [processAudioPlayback] makes for a
    queue [q] when [first] sources have been created before. *)
Fixpoint startCalls (first : SourceNode) (q : list ScheduledPlayback) : list StartCall :=
  match q with
  | [] => []
  | item :: rest => mkStart first (buffer item) (startTime item) :: startCalls (S first) rest
  end.

(** Start time and buffer of everything scheduled so far, in arrival order. *)
Definition scheduled (s : App) : list (Q * AudioBuffer) :=
  map (fun c => (startWhen c, startBuffer c)) (started (world s))
  ++ map (fun p => (startTime p, buffer p)) (audioPlaybackQueueRef s).

(** No buffer of [l] starts before [cursor] or before the one ahead of it
    has played to its end. *)
Fixpoint noOverlap (cursor : Q) (l : list (Q * AudioBuffer)) : Prop :=
  match l with
  | [] => True
  | (t, b) :: rest => (cursor <= t)%Q /\ noOverlap (t + duration b)%Q rest
  end.

(** The buffers of [l] play back to back from [first]: each starts at the
    very time the one ahead of it ends, which is that one's start plus its
    duration, the sum the code leaves in the cursor; [cursor] is where the
    last one ends. *)
Fixpoint backToBack (first : Q) (l : list (Q * AudioBuffer)) (cursor : Q) : Prop :=
  match l with
  | [] => (cursor == first)%Q
  | (t, b) :: rest => (t == first)%Q /\ backToBack (t + duration b)%Q rest cursor
  end.

(** The part of the state the playback scheduler works on. *)
Definition schedulerView (s : App) :=
  (audioPlaybackQueueRef s, nextStartTimeRef s, audioSourcesRef s,
   (started (world s), stopCalls (world s), nodesCreated (world s))).

(** What a handled event can do to that part: leave it alone, stop all
    playback, enqueue a buffer while an output context exists, take an ended
    source out of the live set, or several of these in a row. *)
Inductive schedulerMove : App -> App -> Prop :=
| moveSame (s s' : App) : schedulerView s' = schedulerView s -> schedulerMove s s'
| moveStop (s : App) : schedulerMove s (stopAllPlayback s)
| moveEnqueue (s : App) (currentTime : Q) (b : AudioBuffer) :
    outputAudioContextRef s <> None -> schedulerMove s (enqueue currentTime b s)
| moveEnded (s : App) (source : SourceNode) : schedulerMove s (endedListener source s)
| moveThen (s1 s2 s3 : App) :
    schedulerMove s1 s2 -> schedulerMove s2 s3 -> schedulerMove s1 s3.

(** Every source that is live or has been stopped was started, under a
    number of its own, and none is both live and stopped or stopped twice;
    nothing waits in the queue. *)
Definition sourcesTracked (s : App) : Prop :=
  audioPlaybackQueueRef s = []
  /\ map startNode (started (world s)) = seq 0 (nodesCreated (world s))
  /\ NoDup (stopCalls (world s) ++ audioSourcesRef s)
  /\ Forall (fun n => (n < nodesCreated (world s))%nat)
       (stopCalls (world s) ++ audioSourcesRef s).

(** No time on the timeline is negative. *)
Definition timesNonNegative (s : App) : Prop :=
  (0 <= nextStartTimeRef s)%Q
  /\ Forall (fun c => (0 <= startWhen c)%Q) (started (world s))
  /\ Forall (fun p => (0 <= startTime p)%Q) (audioPlaybackQueueRef s).

(** A session in which two buffers are played, the first ends, and the
    tutor is interrupted. *)
Definition playedAndInterrupted : list Event :=
  [ EvToggle (Some (mkStream false)) 1%nat;
    EvOpen;
    EvMessage 0 (audioMessage "AAAA");
    EvMessage (1 # 2) (audioMessage "BBBB");
    EvEnded 0%nat;
    EvMessage (3 # 2) interruptionMessage;
    EvMessage 2 (audioMessage "CCCC") ].

Definition afterPlayedAndInterrupted : App :=
  Eval vm_compute in
    match run (fun _ => oneSecond) initialApp playedAndInterrupted with
    | Ok s => s
    | Throw _ => initialApp
    end.

(** [l'] continues [l]: it is [l] with entries added at the end, the last
    entry of [l] possibly with another text. *)
Definition continues (l l' : list TranscriptEntry) : Prop :=
  (exists suffix, l' = l ++ suffix)
  \/ (exists init e t suffix,
         l = init ++ [e] /\ l' = init ++ mkEntry (speaker e) t (image e) :: suffix).

(** An entry as the handlers make them: a TUTOR entry has no image, and an
    entry without image has text. *)
Definition wellFormedEntry (e : TranscriptEntry) : Prop :=
  (speaker e = TUTOR -> image e = None)
  /\ (image e = None -> truthy (text e) = true).

(** The texts of [fragments], one after the other. *)
Definition joined (fragments : list string) : string :=
  fold_right append EmptyString fragments.

(** The messages that bring [fragments] of the user's speech, one each. *)
Definition userFragments (currentTime : Q) (fragments : list string) : list Event :=
  map (fun f => EvMessage currentTime (transcriptionMessage (Some f) None false)) fragments.

(** [scriptProcessor.onaudioprocess]: forward the frame, already encoded by
    [createBlob] of [services/audioUtils], to the session if there is one
    ([sessionPromiseRef.current?.then]). *)
Definition onaudioprocess (pcmBlob : Msg.Blob) (s : App) : App :=
  match sessionPromiseRef s with
  | Some _ => sendRealtimeInput pcmBlob s
  | None => s
  end.

Definition afterSecondSession : App :=
  Eval vm_compute in
    match run (fun _ => oneSecond) initialApp secondSessionAfterImage with
    | Ok s => s
    | Throw _ => initialApp
    end.

(** A state whose accumulators hold white space only. *)
Definition silentTurn : App :=
  putUserTranscription "   " (putModelTranscription " " connectedApp).

(** The capture objects of the session. *)
Definition captureView (s : App) :=
  (mediaStreamRef s, scriptProcessorRef s, inputAudioContextRef s, outputAudioContextRef s).

(** No comma in the string. *)
Fixpoint commaFree (s : string) : bool :=
  match s with
  | EmptyString => true
  | String c r => negb (Ascii.eqb c comma) && commaFree r
  end.

(** A data URL: head, comma, payload. *)
Definition dataUrl (head payload : string) : string :=
  (head ++ String comma payload)%string.

(** ** The image cropper ([components/ImageCropper.tsx])

    Coordinates are canvas pixels, as [getCanvasCoordinates] returns them;
    like the times they are exact rationals. *)

Module Cropper.

Record Crop := mkCrop { x : Q; y : Q; width : Q; height : Q }.

Definition HANDLE_SIZE : Q := 10.
Definition MIN_CROP_SIZE : Q := 20.

Inductive Handle :=
| TopLeft | TopMiddle | TopRight
| MiddleLeft | MiddleRight
| BottomLeft | BottomMiddle | BottomRight.

Inductive Action := Move | Resize (handle : Handle).

(** [action.includes('top')] and the like on the names of the handles. *)
Definition includesTop (h : Handle) : bool :=
  match h with TopLeft | TopMiddle | TopRight => true | _ => false end.
Definition includesBottom (h : Handle) : bool :=
  match h with BottomLeft | BottomMiddle | BottomRight => true | _ => false end.
Definition includesLeft (h : Handle) : bool :=
  match h with TopLeft | MiddleLeft | BottomLeft => true | _ => false end.
Definition includesRight (h : Handle) : bool :=
  match h with TopRight | MiddleRight | BottomRight => true | _ => false end.

(** [v >= lo && v <= hi], and [a < b]. *)
Definition within (lo v hi : Q) : bool := Qle_bool lo v && Qle_bool v hi.
Definition less (a b : Q) : bool := negb (Qle_bool b a).

Definition getHandleAtPosition (crop : Crop) (px py : Q) : option Handle :=
  let cx := x crop in
  let cy := y crop in
  let cw := width crop in
  let ch := height crop in
  let hs := HANDLE_SIZE in
  if within (cx - hs) px (cx + hs) && within (cy - hs) py (cy + hs)
  then Some TopLeft
  else if within (cx + cw - hs) px (cx + cw + hs) && within (cy - hs) py (cy + hs)
  then Some TopRight
  else if within (cx - hs) px (cx + hs) && within (cy + ch - hs) py (cy + ch + hs)
  then Some BottomLeft
  else if within (cx + cw - hs) px (cx + cw + hs) && within (cy + ch - hs) py (cy + ch + hs)
  then Some BottomRight
  else if within (cx + cw / 2 - hs) px (cx + cw / 2 + hs) && within (cy - hs) py (cy + hs)
  then Some TopMiddle
  else if within (cx + cw / 2 - hs) px (cx + cw / 2 + hs)
          && within (cy + ch - hs) py (cy + ch + hs)
  then Some BottomMiddle
  else if within (cx - hs) px (cx + hs) && within (cy + ch / 2 - hs) py (cy + ch / 2 + hs)
  then Some MiddleLeft
  else if within (cx + cw - hs) px (cx + cw + hs)
          && within (cy + ch / 2 - hs) py (cy + ch / 2 + hs)
  then Some MiddleRight
  else None.

(** Where [draw] paints each handle: the centre of its square, in the order
    and under the names of the array in [draw]. *)
Definition anchor (crop : Crop) (h : Handle) : Q * Q :=
  match h with
  | TopLeft => (x crop, y crop)
  | TopMiddle => (x crop + width crop / 2, y crop)
  | TopRight => (x crop + width crop, y crop)
  | MiddleLeft => (x crop, y crop + height crop / 2)
  | MiddleRight => (x crop + width crop, y crop + height crop / 2)
  | BottomLeft => (x crop, y crop + height crop)
  | BottomMiddle => (x crop + width crop / 2, y crop + height crop)
  | BottomRight => (x crop + width crop, y crop + height crop)
  end.

(** The point is on the square [draw] paints for the handle:
    [fillRect(h.x - HANDLE_SIZE / 2, h.y - HANDLE_SIZE / 2, HANDLE_SIZE,
    HANDLE_SIZE)]. *)
Definition onPaintedHandle (crop : Crop) (h : Handle) (px py : Q) : Prop :=
  fst (anchor crop h) - HANDLE_SIZE / 2 <= px <= fst (anchor crop h) + HANDLE_SIZE / 2
  /\ snd (anchor crop h) - HANDLE_SIZE / 2 <= py <= snd (anchor crop h) + HANDLE_SIZE / 2.

(** The point is within [HANDLE_SIZE] of the centre of the handle, on both
    axes. *)
Definition nearHandle (crop : Crop) (h : Handle) (px py : Q) : Prop :=
  fst (anchor crop h) - HANDLE_SIZE <= px <= fst (anchor crop h) + HANDLE_SIZE
  /\ snd (anchor crop h) - HANDLE_SIZE <= py <= snd (anchor crop h) + HANDLE_SIZE.

Definition setX (v : Q) (c : Crop) : Crop := mkCrop v (y c) (width c) (height c).
Definition setY (v : Q) (c : Crop) : Crop := mkCrop (x c) v (width c) (height c).
Definition setWidth (v : Q) (c : Crop) : Crop := mkCrop (x c) (y c) v (height c).
Definition setHeight (v : Q) (c : Crop) : Crop := mkCrop (x c) (y c) (width c) v.

(** The move branch of [handleInteractionMove]. *)
Definition moveCrop (canvasWidth canvasHeight : Q) (dragStartPos : Q * Q) (px py : Q)
  (crop : Crop) : Crop :=
  let nextX := px - fst dragStartPos in
  let nextY := py - snd dragStartPos in
  let c1 := setX (Qmax 0 (Qmin nextX (canvasWidth - width crop))) crop in
  setY (Qmax 0 (Qmin nextY (canvasHeight - height c1))) c1.

(** The resize branch, then the clamp to the canvas. *)
Definition resizeCrop (canvasWidth canvasHeight : Q) (h : Handle) (startCrop : Crop)
  (px py : Q) (crop : Crop) : Crop :=
  let c1 := if includesTop h
            then let newY := Qmin py (y startCrop + height startCrop - MIN_CROP_SIZE) in
                 setY newY (setHeight (y startCrop + height startCrop - newY) crop)
            else crop in
  let c2 := if includesBottom h
            then setHeight (Qmax MIN_CROP_SIZE (py - y startCrop)) c1
            else c1 in
  let c3 := if includesLeft h
            then let newX := Qmin px (x startCrop + width startCrop - MIN_CROP_SIZE) in
                 setX newX (setWidth (x startCrop + width startCrop - newX) c2)
            else c2 in
  let c4 := if includesRight h
            then setWidth (Qmax MIN_CROP_SIZE (px - x startCrop)) c3
            else c3 in
  let c5 := if less (x c4) 0 then setX 0 (setWidth (width c4 + x c4) c4) else c4 in
  let c6 := if less (y c5) 0 then setY 0 (setHeight (height c5 + y c5) c5) else c5 in
  let c7 := if less canvasWidth (x c6 + width c6)
            then setWidth (canvasWidth - x c6) c6 else c6 in
  if less canvasHeight (y c7 + height c7)
  then setHeight (canvasHeight - y c7) c7 else c7.

(** The image the component holds once it has loaded, by its natural
    size. *)
Record Image := mkImage { naturalWidth : Q; naturalHeight : Q }.

(** The state of the component: the image in [imageRef], the crop, the
    action of the drag under way, where the drag began, the crop it began
    with, and the size of the canvas. *)
Record Cropper := mkCropper {
  imageRef : option Image;
  crop : Crop;
  action : option Action;
  dragStartPos : Q * Q;
  dragStartCropRef : option Crop;
  canvasWidth : Q;
  canvasHeight : Q
}.

(** The component as it is mounted: no image, the empty crop, no drag.
    [canvasWidth] and [canvasHeight] are the size the canvas element has
    before [draw] first sizes it. *)
Definition mounted (canvasWidth canvasHeight : Q) : Cropper :=
  mkCropper None (mkCrop 0 0 0 0) None (0, 0) None canvasWidth canvasHeight.

(** Of [draw], run by the effect after every change of the crop: the canvas
    takes the size of the image, if there is one. *)
Definition draw (c : Cropper) : Cropper :=
  match imageRef c with
  | Some image =>
      mkCropper (imageRef c) (crop c) (action c) (dragStartPos c) (dragStartCropRef c)
        (naturalWidth image) (naturalHeight image)
  | None => c
  end.

(** [image.onload]: the image goes into [imageRef] and the crop becomes the
    whole image.  Nothing else is set: the action and the drag-start crop of
    a press made before the load stay as they are. *)
Definition imageLoaded (image : Image) (c : Cropper) : Cropper :=
  draw (mkCropper (Some image) (mkCrop 0 0 (naturalWidth image) (naturalHeight image))
          (action c) (dragStartPos c) (dragStartCropRef c)
          (canvasWidth c) (canvasHeight c)).

Definition handleInteractionStart (px py : Q) (c : Cropper) : Cropper :=
  let started :=
    match getHandleAtPosition (crop c) px py with
    | Some handle =>
        mkCropper (imageRef c) (crop c) (Some (Resize handle)) (dragStartPos c)
          (dragStartCropRef c) (canvasWidth c) (canvasHeight c)
    | None =>
        if within (x (crop c)) px (x (crop c) + width (crop c))
           && within (y (crop c)) py (y (crop c) + height (crop c))
        then mkCropper (imageRef c) (crop c) (Some Move) (px - x (crop c), py - y (crop c))
               (dragStartCropRef c) (canvasWidth c) (canvasHeight c)
        else c
    end in
  mkCropper (imageRef started) (crop started) (action started) (dragStartPos started)
    (Some (crop c)) (canvasWidth started) (canvasHeight started).

(** [handleInteractionMove], with the [draw] that follows its [setCrop]. *)
Definition handleInteractionMove (px py : Q) (c : Cropper) : Cropper :=
  match action c, dragStartCropRef c with
  | Some act, Some startCrop =>
      let newCrop :=
        match act with
        | Move => moveCrop (canvasWidth c) (canvasHeight c) (dragStartPos c) px py (crop c)
        | Resize h =>
            resizeCrop (canvasWidth c) (canvasHeight c) h startCrop px py (crop c)
        end in
      draw (mkCropper (imageRef c) newCrop (action c) (dragStartPos c) (dragStartCropRef c)
              (canvasWidth c) (canvasHeight c))
  | _, _ => c
  end.

Definition handleInteractionEnd (c : Cropper) : Cropper :=
  mkCropper (imageRef c) (crop c) None (dragStartPos c) None (canvasWidth c)
    (canvasHeight c).

Inductive Gesture :=
| Press (px py : Q)
| Drag (px py : Q)
| Release.

Definition handle (c : Cropper) (g : Gesture) : Cropper :=
  match g with
  | Press px py => handleInteractionStart px py c
  | Drag px py => handleInteractionMove px py c
  | Release => handleInteractionEnd c
  end.

(** [handleFinalCrop]: the region handed to [drawImage] and then, as a data
    URL, to [onCrop]; none without an image or when the crop is empty. *)
Definition handleFinalCrop (c : Cropper) : option Crop :=
  match imageRef c with
  | None => None
  | Some _ =>
      if Qle_bool (width (crop c)) 0 || Qle_bool (height (crop c)) 0
      then None
      else Some (crop c)
  end.

(** The crop lies on the canvas and is at least [MIN_CROP_SIZE] a side. *)
Definition valid (cw ch : Q) (c : Crop) : Prop :=
  0 <= x c /\ 0 <= y c
  /\ x c + width c <= cw /\ y c + height c <= ch
  /\ MIN_CROP_SIZE <= width c /\ MIN_CROP_SIZE <= height c.

End Cropper.

(** The hit test of one handle, and the order in which
    [getHandleAtPosition] tries the handles: corners first. *)
Definition hitsHandle (c : Cropper.Crop) (px py : Q) (h : Cropper.Handle) : bool :=
  Cropper.within (fst (Cropper.anchor c h) - Cropper.HANDLE_SIZE) px
                 (fst (Cropper.anchor c h) + Cropper.HANDLE_SIZE)
  && Cropper.within (snd (Cropper.anchor c h) - Cropper.HANDLE_SIZE) py
                    (snd (Cropper.anchor c h) + Cropper.HANDLE_SIZE).

Definition hitOrder : list Cropper.Handle :=
  [ Cropper.TopLeft; Cropper.TopRight; Cropper.BottomLeft; Cropper.BottomRight;
    Cropper.TopMiddle; Cropper.BottomMiddle; Cropper.MiddleLeft; Cropper.MiddleRight ].

(** A crop well inside a canvas, for the examples. *)
Definition sampleCrop : Cropper.Crop := Cropper.mkCrop 100 50 200 120.

(** The component holds [image] on a canvas of its size, the crop is valid
    on it, and so is the crop the drag under way began with, if there is a
    drag under way. *)
Definition steadyCropper (image : Cropper.Image) (c : Cropper.Cropper) : Prop :=
  Cropper.imageRef c = Some image
  /\ Cropper.canvasWidth c = Cropper.naturalWidth image
  /\ Cropper.canvasHeight c = Cropper.naturalHeight image
  /\ Cropper.valid (Cropper.canvasWidth c) (Cropper.canvasHeight c) (Cropper.crop c)
  /\ (Cropper.action c = None
      \/ match Cropper.dragStartCropRef c with
         | Some startCrop =>
             Cropper.valid (Cropper.canvasWidth c) (Cropper.canvasHeight c) startCrop
         | None => True
         end).

(** A press on the bottom-right handle of the whole image, a drag far
    outside the canvas, a release, then a drag of the whole crop. *)
Definition sampleGestures : list Cropper.Gesture :=
  [ Cropper.Press 640 480; Cropper.Drag (-50) 9000; Cropper.Release;
    Cropper.Press 10 10; Cropper.Drag 500 500 ].

Definition sampleImage : Cropper.Image := Cropper.mkImage 640 480.

(** The component before the image has loaded, after a press that hit
    nothing: no action, but a drag-start crop that is empty. *)
Definition pressedBeforeLoad : Cropper.Cropper :=
  Cropper.handle (Cropper.mounted 300 150) (Cropper.Press 100 100).

(** A press on the top-left corner made before the image has loaded, then
    the load, then a drag. *)
Definition dragAcrossLoad : Cropper.Cropper :=
  Cropper.handle
    (Cropper.imageLoaded sampleImage
       (Cropper.handle (Cropper.mounted 300 150) (Cropper.Press 5 5)))
    (Cropper.Drag 300 200).

(** What [resizeCrop] does along one axis: [pos] and [len] are the position
    and the length of the crop on that axis, [limit] the length of the
    canvas, [lowHandle] and [highHandle] tell whether the handle is on the
    low (top, left) or high (bottom, right) edge. *)
Definition resizeAxis (limit : Q) (lowHandle highHandle : bool)
  (startPos startLen p pos len : Q) : Q * Q :=
  let low := if lowHandle
             then let n := Qmin p (startPos + startLen - Cropper.MIN_CROP_SIZE) in
                  (n, startPos + startLen - n)
             else (pos, len) in
  let len2 := if highHandle then Qmax Cropper.MIN_CROP_SIZE (p - startPos) else snd low in
  let clamped := if Cropper.less (fst low) 0 then (0, len2 + fst low) else (fst low, len2) in
  if Cropper.less limit (fst clamped + snd clamped)
  then (fst clamped, limit - fst clamped)
  else clamped.

(** * Properties *)

(** ** Playback scheduler *)

Lemma duration_nonneg (b : AudioBuffer) : (0 <= duration b)%Q.
Proof.
  unfold duration, Qle; simpl. lia.
Qed.

Lemma dispatchQueue_assigned (q : list ScheduledPlayback) :
  forall s, audioPlaybackQueueRef s = q -> assigned (dispatchQueue q s) = assigned s.
Proof.
  induction q as [|item rest IH]; intros s Hq.
  - reflexivity.
  - cbn [dispatchQueue]. rewrite IH by reflexivity.
    unfold assigned. rewrite Hq. cbn.
    rewrite map_app, <- app_assoc. reflexivity.
Qed.

Lemma dispatchQueue_nextStartTime (q : list ScheduledPlayback) :
  forall s, nextStartTimeRef (dispatchQueue q s) = nextStartTimeRef s.
Proof.
  induction q as [|item rest IH]; intros s; cbn [dispatchQueue].
  - reflexivity.
  - rewrite IH. reflexivity.
Qed.

Lemma processAudioPlayback_assigned (s : App) :
  assigned (processAudioPlayback s) = assigned s.
Proof.
  unfold processAudioPlayback. destruct (outputAudioContextRef s).
  - now apply dispatchQueue_assigned.
  - reflexivity.
Qed.

Lemma processAudioPlayback_nextStartTime (s : App) :
  nextStartTimeRef (processAudioPlayback s) = nextStartTimeRef s.
Proof.
  unfold processAudioPlayback. destruct (outputAudioContextRef s).
  - apply dispatchQueue_nextStartTime.
  - reflexivity.
Qed.

(** One enqueue hands out [max(nextStartTime, currentTime)] and moves the
    cursor to the end of the buffer. *)
Lemma enqueue_assigned (currentTime : Q) (b : AudioBuffer) (s : App) :
  assigned (enqueue currentTime b s)
  = assigned s ++ [Qmax (nextStartTimeRef s) currentTime].
Proof.
  unfold enqueue. rewrite processAudioPlayback_assigned.
  unfold assigned. cbn. rewrite map_app, app_assoc. reflexivity.
Qed.

Lemma enqueue_nextStartTime (currentTime : Q) (b : AudioBuffer) (s : App) :
  nextStartTimeRef (enqueue currentTime b s)
  = (Qmax (nextStartTimeRef s) currentTime + duration b)%Q.
Proof.
  unfold enqueue. rewrite processAudioPlayback_nextStartTime. reflexivity.
Qed.

Lemma enqueue_cursor_le (currentTime : Q) (b : AudioBuffer) (s : App) :
  (Qmax (nextStartTimeRef s) currentTime <= nextStartTimeRef (enqueue currentTime b s))%Q.
Proof.
  rewrite enqueue_nextStartTime. pose proof (duration_nonneg b). lra.
Qed.

(** The audio branch of [onmessage] is an enqueue of the decoded buffer at
    the clock reading of the message. *)
Lemma onmessage_audio_enqueues decodeAudioData (currentTime : Q) (d : string) (s : App) :
  truthy d = true ->
  outputAudioContextRef s <> None ->
  onmessage decodeAudioData currentTime (audioMessage d) s
  = Ok (enqueue currentTime (decodeAudioData d) (setStatus SPEAKING s)).
Proof.
  intros Hd Hctx. unfold onmessage, audioMessage, audioStep, audioPayload, accumulate.
  cbn. rewrite Hd.
  destruct (outputAudioContextRef s); [reflexivity|contradiction].
Qed.

(** C3.  For every run of enqueues, from any state, the start times handed
    out ([ts], appended to those handed out before) never decrease in
    arrival order, none is earlier than the clock reading at its own
    enqueue, and none is earlier than the cursor the run started from. *)
Theorem enqueue_startTimes_nondecreasing (arrivals : list (Q * AudioBuffer)) :
  forall s, exists ts,
    assigned (enqueueAll arrivals s) = assigned s ++ ts
    /\ StronglySorted Qle ts
    /\ Forall2 (fun arrival t => (fst arrival <= t)%Q) arrivals ts
    /\ Forall (fun t => (nextStartTimeRef s <= t)%Q) ts.
Proof.
  induction arrivals as [|[currentTime b] rest IH]; intros s.
  - exists []. rewrite app_nil_r. repeat split; constructor.
  - destruct (IH (enqueue currentTime b s)) as (ts & Hts & Hsorted & Hclock & Hcursor).
    pose proof (enqueue_cursor_le currentTime b s) as Hstep.
    pose proof (Q.le_max_l (nextStartTimeRef s) currentTime) as Hl.
    pose proof (Q.le_max_r (nextStartTimeRef s) currentTime) as Hr.
    exists (Qmax (nextStartTimeRef s) currentTime :: ts).
    split; [|split; [|split]].
    + cbn [enqueueAll]. rewrite Hts, enqueue_assigned, <- app_assoc. reflexivity.
    + constructor; [assumption|].
      eapply Forall_impl; [|exact Hcursor]. cbn. intros t Ht. lra.
    + constructor; assumption.
    + constructor; [assumption|].
      eapply Forall_impl; [|exact Hcursor]. cbn. intros t Ht. lra.
Qed.

(** C9.  Three buffers of 1 s, 1 s and 0.5 s enqueued with the clock at 0,
    from a cursor at 0, start at 0, 1 and 2, and the cursor ends at 2.5. *)
Theorem three_buffers_scenario (s : App) (b1 b2 b3 : AudioBuffer) :
  nextStartTimeRef s == 0 ->
  duration b1 == 1 -> duration b2 == 1 -> duration b3 == 1 # 2 ->
  let s' := enqueueAll [(0, b1); (0, b2); (0, b3)] s in
  exists t1 t2 t3,
    assigned s' = assigned s ++ [t1; t2; t3]
    /\ t1 == 0 /\ t2 == 1 /\ t3 == 2
    /\ nextStartTimeRef s' == 5 # 2.
Proof.
  intros Hcursor H1 H2 H3 s'. subst s'. cbn [enqueueAll].
  set (s1 := enqueue 0 b1 s). set (s2 := enqueue 0 b2 s1).
  exists (Qmax (nextStartTimeRef s) 0), (Qmax (nextStartTimeRef s1) 0),
         (Qmax (nextStartTimeRef s2) 0).
  assert (E1 : Qmax (nextStartTimeRef s) 0 == 0).
  { destruct (Q.max_spec (nextStartTimeRef s) 0) as [[? ?]|[? ?]]; lra. }
  assert (C1 : nextStartTimeRef s1 == 1).
  { subst s1. rewrite enqueue_nextStartTime. lra. }
  assert (E2 : Qmax (nextStartTimeRef s1) 0 == 1).
  { destruct (Q.max_spec (nextStartTimeRef s1) 0) as [[? ?]|[? ?]]; lra. }
  assert (C2 : nextStartTimeRef s2 == 2).
  { subst s2. rewrite enqueue_nextStartTime. lra. }
  assert (E3 : Qmax (nextStartTimeRef s2) 0 == 2).
  { destruct (Q.max_spec (nextStartTimeRef s2) 0) as [[? ?]|[? ?]]; lra. }
  repeat split; try assumption.
  - subst s1 s2. rewrite !enqueue_assigned, <- !app_assoc. reflexivity.
  - rewrite enqueue_nextStartTime. lra.
Qed.

Lemma three_buffers_scenario_witness :
  let s' := enqueueAll [(0, oneSecond); (0, oneSecond); (0, halfSecond)] initialApp in
  exists t1 t2 t3,
    assigned s' = assigned initialApp ++ [t1; t2; t3]
    /\ t1 == 0 /\ t2 == 1 /\ t3 == 2
    /\ nextStartTimeRef s' == 5 # 2.
Proof.
  apply (three_buffers_scenario initialApp oneSecond oneSecond halfSecond);
    reflexivity.
Defined.

(** [stopAllPlayback] in closed form. *)
Lemma stopLoop_world (l : list SourceNode) :
  forall s,
    fold_left (fun acc source => sourceStop source acc) l s
    = putWorld (withStops l (world s)) s.
Proof.
  induction l as [|n l IH]; intros s.
  - destruct s as [? ? ? ? ? ? ? ? ? ? ? ? ? ? w]; destruct w.
    unfold putWorld, withStops; cbn. rewrite app_nil_r. reflexivity.
  - cbn [fold_left]. rewrite IH. unfold sourceStop, putWorld, withStops; cbn.
    rewrite <- app_assoc. reflexivity.
Qed.

Lemma stopAllPlayback_eq (s : App) :
  stopAllPlayback s
  = putNextStartTime 0%Q
      (putQueue [] (putSources [] (putWorld (withStops (audioSourcesRef s) (world s)) s))).
Proof.
  unfold stopAllPlayback. rewrite stopLoop_world. reflexivity.
Qed.

(** A tactic for frame facts: unfold the handlers down to field updates and
    split on what they test. *)
Ltac split_tests :=
  repeat match goal with
         | |- context [match ?x with _ => _ end] => destruct x eqn:?; cbn
         | |- context [if ?x then _ else _] => destruct x eqn:?; cbn
         end.

Ltac unfold_handlers :=
  unfold onerror, onclose, handleToggleSession, handleToggleSessionWithExport,
    stopBranchWithExport, handleEmailTranscript, stopBranch, startBranch,
    handleSendDrawing, handleCropComplete, sendImageData,
    handleFileSelect, readerOnload, readerOnerror, endedListener,
    finishTurn, appendEntries, accumulate,
    alert, sendRealtimeInput, sessionClose in *;
  rewrite ?stopAllPlayback_eq in *.

(** What [commitTurn] leaves alone. *)
Lemma commitTurn_frame (s s' : App) :
  commitTurn s = Ok s' ->
  nextStartTimeRef s' = nextStartTimeRef s
  /\ audioPlaybackQueueRef s' = audioPlaybackQueueRef s
  /\ audioSourcesRef s' = audioSourcesRef s
  /\ sessionPromiseRef s' = sessionPromiseRef s
  /\ isSessionActive s' = isSessionActive s
  /\ closureTranscript s' = closureTranscript s
  /\ world s' = world s.
Proof.
  unfold commitTurn. destruct (mergeBranch s).
  - destruct (setLastText _ _); cbn; [|discriminate].
    intros [= <-]. unfold_handlers. split_tests; cbn; repeat split.
  - intros [= <-]. unfold_handlers. split_tests; cbn; repeat split.
Qed.

(** A step that enqueues nothing leaves the cursor where it was or puts it
    back to zero. *)
Lemma step_cursor decodeAudioData (s s' : App) (e : Event) :
  step decodeAudioData s e = Ok s' ->
  enqueues e = false ->
  nextStartTimeRef s' = nextStartTimeRef s \/ nextStartTimeRef s' = 0%Q.
Proof.
  destruct e; cbn [step enqueues].
  - intros [= <-] _. unfold_handlers. split_tests; auto.
  - unfold onopen. cbn. destruct (inputAudioContextRef s); [|discriminate].
    intros [= <-] _. left. reflexivity.
  - unfold onmessage. destruct (Msg.serverContent message) as [sc|].
    + destruct (audioPayload (Msg.modelTurn sc)) eqn:Hp; [discriminate|].
      intros H _. unfold audioStep in H. rewrite Hp in H.
      assert (Hpre : nextStartTimeRef
                (if Msg.interrupted sc then stopAllPlayback (accumulate sc s)
                 else accumulate sc s) = nextStartTimeRef s
              \/ nextStartTimeRef
                (if Msg.interrupted sc then stopAllPlayback (accumulate sc s)
                 else accumulate sc s) = 0%Q).
      { unfold_handlers. split_tests; auto. }
      destruct (Msg.modelTurn sc); cbn [bind] in H;
        (destruct (Msg.turnComplete sc);
         [apply commitTurn_frame in H; destruct H as [H _]; rewrite H; exact Hpre
         |injection H as <-; exact Hpre]).
    + intros [= <-] _. left. reflexivity.
  - intros [= <-] _. right. unfold_handlers. reflexivity.
  - intros [= <-] _. right. unfold_handlers. reflexivity.
  - intros [= <-] _. left. unfold_handlers. split_tests; reflexivity.
  - intros [= <-] _. left. unfold_handlers. split_tests; reflexivity.
  - intros [= <-] _. left. reflexivity.
  - intros [= <-] _. left. unfold_handlers. split_tests; reflexivity.
  - intros [= <-] _. left. unfold_handlers. cbn. split_tests; reflexivity.
Qed.

Lemma run_cursor_zero decodeAudioData (events : list Event) :
  forall s s',
    nextStartTimeRef s = 0%Q ->
    Forall (fun e => enqueues e = false) events ->
    run decodeAudioData s events = Ok s' ->
    nextStartTimeRef s' = 0%Q.
Proof.
  induction events as [|e rest IH]; intros s s' Hzero Hquiet Hrun.
  - injection Hrun as <-. exact Hzero.
  - inversion Hquiet as [|? ? He Hrest]; subst.
    cbn [run] in Hrun.
    destruct (step decodeAudioData s e) as [s1|] eqn:Hstep; [|discriminate].
    cbn [bind] in Hrun.
    apply (IH s1 s'); [|assumption|assumption].
    destruct (step_cursor decodeAudioData s s1 e Hstep He) as [Hsame|Hreset]; congruence.
Qed.

(** C4.  [stopAllPlayback] stops every live source, empties the queue and
    puts the cursor back to zero; whatever is handled afterwards without
    enqueuing, the next enqueue starts at the clock reading of its arrival. *)
Theorem stopAllPlayback_reanchors decodeAudioData (s s1 : App) (events : list Event)
  (currentTime : Q) (b : AudioBuffer) :
  (0 <= currentTime)%Q ->
  Forall (fun e => enqueues e = false) events ->
  run decodeAudioData (stopAllPlayback s) events = Ok s1 ->
  (stopCalls (world (stopAllPlayback s)) = stopCalls (world s) ++ audioSourcesRef s
   /\ audioSourcesRef (stopAllPlayback s) = []
   /\ audioPlaybackQueueRef (stopAllPlayback s) = []
   /\ nextStartTimeRef (stopAllPlayback s) = 0%Q)
  /\ exists t, assigned (enqueue currentTime b s1) = assigned s1 ++ [t]
               /\ t == currentTime.
Proof.
  intros Hclock Hquiet Hrun. split.
  - rewrite stopAllPlayback_eq. cbn. repeat split.
  - exists (Qmax (nextStartTimeRef s1) currentTime). split.
    + apply enqueue_assigned.
    + rewrite (run_cursor_zero decodeAudioData events (stopAllPlayback s) s1);
        [|rewrite stopAllPlayback_eq; reflexivity|assumption|assumption].
      apply Q.max_r. exact Hclock.
Qed.

Lemma stopAllPlayback_reanchors_witness :
  (stopCalls (world (stopAllPlayback playingApp)) = [0%nat]
   /\ audioSourcesRef (stopAllPlayback playingApp) = []
   /\ audioPlaybackQueueRef (stopAllPlayback playingApp) = []
   /\ nextStartTimeRef (stopAllPlayback playingApp) = 0%Q)
  /\ exists t,
      assigned (enqueue (3 # 4) halfSecond (endedListener 0%nat (stopAllPlayback playingApp)))
      = assigned (endedListener 0%nat (stopAllPlayback playingApp)) ++ [t]
      /\ t == 3 # 4.
Proof.
  apply (stopAllPlayback_reanchors (fun _ => oneSecond) playingApp
           (endedListener 0%nat (stopAllPlayback playingApp)) [EvEnded 0%nat] (3 # 4) halfSecond).
  - unfold Qle; simpl; lia.
  - repeat constructor.
  - reflexivity.
Defined.

(** ** Transcript reconciler *)

Lemma setLastText_length (t : string) (prev : list TranscriptEntry) :
  forall updated, setLastText t prev = Ok updated -> length updated = length prev.
Proof.
  induction prev as [|e rest IH]; intros updated H; cbn in H.
  - discriminate.
  - destruct rest as [|e' rest'].
    + injection H as <-. reflexivity.
    + destruct (setLastText t (e' :: rest')) as [u|] eqn:Hu; cbn in H; [|discriminate].
      injection H as <-. cbn. f_equal. now apply IH.
Qed.

Lemma setLastText_throws (t : string) (prev : list TranscriptEntry) :
  forall e, setLastText t prev = Throw e -> prev = [].
Proof.
  induction prev as [|x rest IH]; intros e H.
  - reflexivity.
  - exfalso. cbn in H. destruct rest as [|x' rest']; [discriminate|].
    destruct (setLastText t (x' :: rest')) as [u|e'] eqn:Hu; cbn in H; [discriminate|].
    specialize (IH e' eq_refl). discriminate.
Qed.

Lemma tutorEntries_speaker (t : string) :
  Forall (fun e => speaker e = TUTOR) (tutorEntries t).
Proof.
  unfold tutorEntries. destruct (truthy t); repeat constructor.
Qed.

Lemma transcript_appendEntries (newEntries : list TranscriptEntry) (s : App) :
  transcript (appendEntries newEntries s) = transcript s ++ newEntries.
Proof.
  unfold appendEntries. destruct newEntries; cbn.
  - now rewrite app_nil_r.
  - reflexivity.
Qed.

(** C1, the defect.  In the first session of the component the transcript
    ends with an image-only USER entry and the trimmed user text is not
    empty, yet the commit takes the append branch: the [lastEntry] it tests
    comes from the transcript the callback closed over, which is empty.  The
    image entry keeps its empty text and a second USER entry is appended. *)
Theorem merge_missed_in_first_session decodeAudioData :
  exists s s',
    run decodeAudioData initialApp firstSessionWithImage = Ok s
    /\ imageOnlyUserEntry (lastEntry (transcript s)) = true
    /\ truthy (trim (userTranscriptionRef s)) = true
    /\ mergeBranch s = false
    /\ commitTurn s = Ok s'
    /\ transcript s' = [ mkEntry USER EmptyString (Some drawingUrl);
                         mkEntry USER "what is this" None ].
Proof.
  eexists. eexists. split; [vm_compute; reflexivity|].
  split; [vm_compute; reflexivity|].
  split; [vm_compute; reflexivity|].
  split; [vm_compute; reflexivity|].
  split; vm_compute; reflexivity.
Qed.

(** The same defect in a later session.  The first session ended on an
    image-only entry, so the callbacks of the second session test that stale
    entry at every commit: the user's words overwrite the text of whatever
    entry is last, here a TUTOR entry, and no USER entry is appended. *)
Lemma stale_merge_in_later_session decodeAudioData :
  exists s s',
    run decodeAudioData initialApp secondSessionAfterImage = Ok s
    /\ transcript s = [ mkEntry TUTOR "hello" None ]
    /\ truthy (trim (userTranscriptionRef s)) = true
    /\ mergeBranch s = true
    /\ commitTurn s = Ok s'
    /\ transcript s' = [ mkEntry TUTOR "hi" None ].
Proof.
  eexists. eexists. split; [vm_compute; reflexivity|].
  split; [vm_compute; reflexivity|].
  split; [vm_compute; reflexivity|].
  split; [vm_compute; reflexivity|].
  split; vm_compute; reflexivity.
Qed.

(** What a commit does to the transcript, by the branch the code takes,
    which [mergeBranch] decides on the transcript in the closure.  In the
    append branch one entry is appended per accumulator that is non-empty
    after trimming; in the merge branch the user text goes into the last
    entry and only the tutor entry is appended.  With both accumulators
    empty nothing is appended and the transcript is the same.  The commit
    throws exactly when the merge branch meets an empty transcript. *)
Lemma commitTurn_by_branch (s : App) :
  match commitTurn s with
  | Ok s' =>
      exists kept newEntries,
        transcript s' = kept ++ newEntries
        /\ length kept = length (transcript s)
        /\ (if mergeBranch s
            then setLastText (trim (userTranscriptionRef s)) (transcript s) = Ok kept
                 /\ Forall (fun e => speaker e = TUTOR) newEntries
                 /\ S (length newEntries) = nonEmptyCount s
            else kept = transcript s /\ length newEntries = nonEmptyCount s)
        /\ (if Nat.eqb (nonEmptyCount s) 0 then transcript s' = transcript s else True)
  | Throw _ => mergeBranch s = true /\ transcript s = []
  end.
Proof.
  unfold commitTurn, nonEmptyCount.
  destruct (mergeBranch s) eqn:Hm.
  - destruct (setLastText (trim (userTranscriptionRef s)) (transcript s))
      as [updated|e] eqn:Hu; cbn [bind].
    + exists updated, (tutorEntries (trim (modelTranscriptionRef s))).
      unfold mergeBranch in Hm. apply andb_prop in Hm as [_ Hu1]. rewrite Hu1.
      repeat split.
      * unfold finishTurn; cbn. now rewrite transcript_appendEntries.
      * now apply setLastText_length in Hu.
      * apply tutorEntries_speaker.
      * unfold tutorEntries. now destruct (truthy (trim (modelTranscriptionRef s))).
    + split; [reflexivity|]. now apply setLastText_throws in Hu.
  - exists (transcript s),
      (userEntries (trim (userTranscriptionRef s))
       ++ tutorEntries (trim (modelTranscriptionRef s))).
    repeat split.
    + unfold finishTurn; cbn. now rewrite transcript_appendEntries.
    + unfold userEntries, tutorEntries.
      destruct (truthy (trim (userTranscriptionRef s))),
               (truthy (trim (modelTranscriptionRef s))); reflexivity.
    + unfold finishTurn, userEntries, tutorEntries.
      destruct (truthy (trim (userTranscriptionRef s))),
               (truthy (trim (modelTranscriptionRef s))); cbn; try exact I.
      reflexivity.
Qed.

(** C2, the defect: the count of a commit follows the stale entry of C1.

    In the first session the transcript ends with the image-only entry and
    the user's words are the one non-empty accumulator, so the merge of the
    claim applies and the commit should append nothing (one fewer than the
    non-empty accumulators) and fill in the text of the image entry.  The
    code appends a USER entry instead.

    In a session started after one that ended on the image-only entry the
    transcript is empty, so the commit should append the USER entry.  The
    code takes the merge branch on the entry in its closure, and the
    updater throws on the empty array: nothing is appended. *)
Theorem commit_count_follows_stale_entry decodeAudioData :
  (exists s s',
      run decodeAudioData initialApp firstSessionWithImage = Ok s
      /\ imageOnlyUserEntry (lastEntry (transcript s)) = true
      /\ truthy (trim (userTranscriptionRef s)) = true
      /\ nonEmptyCount s = 1%nat
      /\ onmessage decodeAudioData 0 turnCompleteMessage s = Ok s'
      /\ transcript s' = transcript s ++ [ mkEntry USER "what is this" None ]
      /\ length (transcript s') = (length (transcript s) + nonEmptyCount s)%nat)
  /\ (exists s,
        run decodeAudioData initialApp newSessionAfterImage = Ok s
        /\ transcript s = []
        /\ lastEntry (transcript s) = None
        /\ nonEmptyCount s = 1%nat
        /\ mergeBranch s = true
        /\ commitTurn s = Throw TypeError
        /\ onmessage decodeAudioData 0 turnCompleteMessage s = Throw TypeError).
Proof.
  split.
  - eexists. eexists. split; [vm_compute; reflexivity|].
    split; [vm_compute; reflexivity|].
    split; [vm_compute; reflexivity|].
    split; [vm_compute; reflexivity|].
    split; [vm_compute; reflexivity|].
    split; vm_compute; reflexivity.
  - eexists. split; [vm_compute; reflexivity|].
    split; [vm_compute; reflexivity|].
    split; [vm_compute; reflexivity|].
    split; [vm_compute; reflexivity|].
    split; [vm_compute; reflexivity|].
    split; vm_compute; reflexivity.
Qed.

(** ** Status *)

Lemma dispatchQueue_frame (q : list ScheduledPlayback) :
  forall s,
    sessionView (dispatchQueue q s) = sessionView s
    /\ reconcilerView (dispatchQueue q s) = reconcilerView s
    /\ outsideView (dispatchQueue q s) = outsideView s
    /\ status (dispatchQueue q s) = status s.
Proof.
  induction q as [|item rest IH]; intros s; cbn [dispatchQueue].
  - repeat split.
  - destruct (IH (putSources
                    (audioSourcesRef
                       (sourceStart (buffer item) (startTime item) (putQueue rest s))
                     ++ [nodesCreated (world (putQueue rest s))])
                    (sourceStart (buffer item) (startTime item) (putQueue rest s))))
      as (H1 & H2 & H3 & H4).
    rewrite H1, H2, H3, H4. repeat split.
Qed.

Lemma enqueue_frame (currentTime : Q) (b : AudioBuffer) (s : App) :
  sessionView (enqueue currentTime b s) = sessionView s
  /\ reconcilerView (enqueue currentTime b s) = reconcilerView s
  /\ outsideView (enqueue currentTime b s) = outsideView s
  /\ status (enqueue currentTime b s) = status s.
Proof.
  unfold enqueue, processAudioPlayback. cbn.
  destruct (outputAudioContextRef s).
  - match goal with |- context [dispatchQueue ?q ?s0] =>
      destruct (dispatchQueue_frame q s0) as (H1 & H2 & H3 & H4) end.
    rewrite H1, H2, H3, H4. repeat split.
  - repeat split.
Qed.

Lemma audioStep_frame decodeAudioData (currentTime : Q) (modelTurn : option Msg.Content)
  (s : App) :
  match audioStep decodeAudioData currentTime modelTurn s with
  | Ok s' =>
      sessionView s' = sessionView s
      /\ reconcilerView s' = reconcilerView s
      /\ outsideView s' = outsideView s
      /\ status s' = statusOfTurn modelTurn
  | Throw _ => audioPayload modelTurn <> None /\ outputAudioContextRef s = None
  end.
Proof.
  unfold audioStep, statusOfTurn.
  destruct (audioPayload modelTurn) as [d|].
  - cbn. destruct (outputAudioContextRef s) eqn:Hctx.
    + destruct (enqueue_frame currentTime (decodeAudioData d) (setStatus SPEAKING s))
        as (H1 & H2 & H3 & H4).
      rewrite H1, H2, H3, H4. repeat split.
    + split; [discriminate|reflexivity].
  - destruct modelTurn; repeat split.
Qed.

Lemma commitTurn_status (s s' : App) : commitTurn s = Ok s' -> status s' = LISTENING.
Proof.
  unfold commitTurn. destruct (mergeBranch s).
  - destruct (setLastText _ _); cbn; [|discriminate]. now intros [= <-].
  - now intros [= <-].
Qed.

Lemma commitTurn_throws (s : App) (e : Exception) :
  commitTurn s = Throw e ->
  transcript s = [] /\ imageOnlyUserEntry (lastEntry (closureTranscript s)) = true.
Proof.
  unfold commitTurn. destruct (mergeBranch s) eqn:Hm; [|discriminate].
  destruct (setLastText _ _) eqn:Hu; cbn; [discriminate|].
  intros _. split.
  - now apply setLastText_throws in Hu.
  - unfold mergeBranch in Hm. now apply andb_prop in Hm.
Qed.

Lemma interrupt_frame (interrupted : bool) (s : App) :
  let s' := if interrupted then stopAllPlayback s else s in
  sessionView s' = sessionView s
  /\ reconcilerView s' = reconcilerView s
  /\ stopCalls (world s')
     = (if interrupted then stopCalls (world s) ++ audioSourcesRef s else stopCalls (world s)).
Proof.
  destruct interrupted; cbv zeta; [rewrite stopAllPlayback_eq|]; repeat split.
Qed.

Lemma accumulate_frame (sc : Msg.ServerContent) (s : App) :
  sessionView (accumulate sc s) = sessionView s
  /\ transcript (accumulate sc s) = transcript s
  /\ closureTranscript (accumulate sc s) = closureTranscript s
  /\ world (accumulate sc s) = world s
  /\ audioSourcesRef (accumulate sc s) = audioSourcesRef s.
Proof.
  unfold accumulate.
  destruct (Msg.inputTranscription sc), (Msg.outputTranscription sc); repeat split.
Qed.

(** C5, as the code has it.  A message without [serverContent] changes
    nothing.  Otherwise the status ends as LISTENING when [turnComplete] is
    set, and else as SPEAKING for an audio payload in the first part,
    THINKING without a model turn, LISTENING for a model turn without such a
    payload.  The interruption signal runs [stopAllPlayback] on the live
    sources and has no say in the status.  The handler throws only for audio
    without an output context, or for a merge into an empty transcript. *)
Theorem onmessage_status decodeAudioData (currentTime : Q)
  (message : Msg.LiveServerMessage) (s : App) :
  match Msg.serverContent message with
  | None => onmessage decodeAudioData currentTime message s = Ok s
  | Some sc =>
      match onmessage decodeAudioData currentTime message s with
      | Ok s' =>
          status s' = statusAfter sc
          /\ stopCalls (world s')
             = (if Msg.interrupted sc then stopCalls (world s) ++ audioSourcesRef s
                else stopCalls (world s))
      | Throw _ =>
          (audioPayload (Msg.modelTurn sc) <> None /\ outputAudioContextRef s = None)
          \/ (Msg.turnComplete sc = true /\ transcript s = []
              /\ imageOnlyUserEntry (lastEntry (closureTranscript s)) = true)
      end
  end.
Proof.
  unfold onmessage, statusAfter.
  destruct (Msg.serverContent message) as [sc|]; [|reflexivity].
  destruct (accumulate_frame sc s) as (Ha1 & Ha2 & Ha3 & Ha4 & Ha5).
  destruct (interrupt_frame (Msg.interrupted sc) (accumulate sc s)) as (Hi1 & Hi2 & Hi3).
  cbv zeta in Hi1, Hi2, Hi3.
  set (s2 := if Msg.interrupted sc then stopAllPlayback (accumulate sc s)
             else accumulate sc s) in *.
  pose proof (audioStep_frame decodeAudioData currentTime (Msg.modelTurn sc) s2) as Hstep.
  destruct (audioStep decodeAudioData currentTime (Msg.modelTurn sc) s2) as [s3|e];
    cbn [bind].
  - destruct Hstep as (Hs1 & Hs2 & Hs3 & Hs4).
    assert (Hstops : stopCalls (world s3)
                     = if Msg.interrupted sc then stopCalls (world s) ++ audioSourcesRef s
                       else stopCalls (world s)).
    { assert (E : stopCalls (world s3) = stopCalls (world s2))
        by (unfold outsideView in Hs3; congruence).
      rewrite E, Hi3, Ha4, Ha5. reflexivity. }
    destruct (Msg.turnComplete sc).
    + destruct (commitTurn s3) as [s4|e] eqn:Hc.
      * split; [now apply commitTurn_status in Hc|].
        apply commitTurn_frame in Hc. destruct Hc as (_ & _ & _ & _ & _ & _ & Hw).
        rewrite Hw. exact Hstops.
      * right. apply commitTurn_throws in Hc. destruct Hc as [Ht Hc].
        unfold reconcilerView in Hs2, Hi2.
        split; [reflexivity|]. split; congruence.
    + split; assumption.
  - left. destruct Hstep as [Hp Hctx]. split; [assumption|].
    unfold sessionView in Hi1, Ha1. congruence.
Qed.

(** C5 as worded fails: a message that carries the interruption signal alone
    leaves the status at THINKING, not LISTENING. *)
Lemma interruption_status_counterexample :
  ~ (forall decodeAudioData currentTime message sc s s',
        Msg.serverContent message = Some sc ->
        Msg.interrupted sc = true ->
        onmessage decodeAudioData currentTime message s = Ok s' ->
        status s' = LISTENING).
Proof.
  intros H.
  assert (Hrun : onmessage (fun _ => oneSecond) 0 interruptionMessage playingApp
                 = Ok (setStatus THINKING (stopAllPlayback playingApp)))
    by (vm_compute; reflexivity).
  specialize (H (fun _ => oneSecond) 0 interruptionMessage _ playingApp _
                eq_refl eq_refl Hrun).
  discriminate H.
Qed.

(** ** Session lifecycle *)

Lemma onclose_idle (s : App) : idle (onclose s).
Proof.
  unfold onclose. rewrite stopAllPlayback_eq. unfold idle, tornDown; cbn.
  repeat split.
  - now destruct (mediaStreamRef s).
  - now destruct (scriptProcessorRef s).
  - now destruct (inputAudioContextRef s).
  - now destruct (outputAudioContextRef s).
Qed.

Lemma onclose_noop (s : App) : idle s -> onclose s = s.
Proof.
  intros (Hst & Hact & Hh & Hq & Hsrc & Hcur & Hm & Hp & Hi & Ho).
  unfold onclose. rewrite stopAllPlayback_eq.
  destruct s as [act st tr h ictx octx ms sp u m q cur src cl w]; destruct w.
  cbn in *. subst. unfold withStops; cbn. rewrite app_nil_r.
  destruct ms as [[?]|], sp as [[?]|], ictx as [[? ?]|], octx as [[? ?]|];
    cbn in *; subst; reflexivity.
Qed.

Lemma stopSession_alert (m : string) (s : App) :
  stopSession (alert m s) = alert m (stopSession s).
Proof.
  unfold stopSession, stopBranch, onclose. rewrite !stopAllPlayback_eq.
  destruct s as [act st tr h ictx octx ms sp u mo q cur src cl w]; destruct w.
  destruct h; reflexivity.
Qed.

Lemma withoutAlerts_alert (m : string) (s : App) :
  withoutAlerts (alert m s) = withoutAlerts s.
Proof.
  reflexivity.
Qed.

Lemma idle_alert (m : string) (s : App) : idle s -> idle (alert m s).
Proof.
  intros H. exact H.
Qed.

(** The stop of the first version is the stop of the second, with the
    export notice raised first when the transcript is not empty. *)
Lemma stopSessionWithExport_cases (s : App) :
  stopSessionWithExport s = stopSession s
  \/ stopSessionWithExport s = alert exportNotice (stopSession s).
Proof.
  unfold stopSessionWithExport, stopBranchWithExport, handleEmailTranscript.
  destruct (transcript s); cbn [length Nat.ltb Nat.leb Nat.eqb].
  - left. reflexivity.
  - right. apply stopSession_alert.
Qed.

(** [stopSession] is what the button and the close that follows do to an
    active session, and to an active session only: pressed while no session
    is active, the button runs the start branch. *)
Lemma stopSession_of_button (microphone : option MediaStream) (session : LiveSession)
  (s : App) :
  (isSessionActive s = true ->
   onclose (handleToggleSession microphone session s) = stopSession s
   /\ onclose (handleToggleSessionWithExport microphone session s)
      = stopSessionWithExport s)
  /\ (isSessionActive s = false ->
      handleToggleSession microphone session s = startBranch microphone session s
      /\ handleToggleSessionWithExport microphone session s
         = startBranch microphone session s).
Proof.
  unfold handleToggleSession, handleToggleSessionWithExport, stopSession,
    stopSessionWithExport.
  split; intros ->; split; reflexivity.
Qed.

Lemma stopBranch_pressed_again (s : App) :
  isSessionActive (stopBranch s) = isSessionActive s
  /\ sessionPromiseRef (stopBranch s) = sessionPromiseRef s.
Proof.
  unfold stopBranch. destruct (sessionPromiseRef s) eqn:E; cbn; now rewrite ?E.
Qed.

(** C6, as the code has it.  The cleanup of a session is [onclose]; from any state
    it ends with status IDLE, no session handle and an empty playback queue,
    at rest; run twice in a row it ends where one run ends; and on a session
    already at rest it changes nothing.

    The stop control is the session button pressed while a session is
    active.  It asks the session to close, once per press, and changes
    nothing else (the first version raises its export notice before, when
    there is a transcript); pressed again before the close has come back it
    asks again; the cleanup follows when the close comes back.

    The button is a toggle: pressed while no session is active it empties
    the transcript and starts a session. *)
Theorem stop_cleanup_idempotent (microphone : option MediaStream) (session : LiveSession)
  (s : App) :
  (onclose (onclose s) = onclose s
   /\ status (onclose s) = IDLE
   /\ sessionPromiseRef (onclose s) = None
   /\ audioPlaybackQueueRef (onclose s) = []
   /\ idle (onclose s))
  /\ (idle s -> onclose s = s)
  /\ (isSessionActive s = true ->
      let pressed := handleToggleSession microphone session s in
      pressed = match sessionPromiseRef s with
                | Some h => sessionClose h s
                | None => s
                end
      /\ handleToggleSessionWithExport microphone session s
         = (let exported := match transcript s with
                            | [] => s
                            | _ :: _ => alert exportNotice s
                            end in
            match sessionPromiseRef s with
            | Some h => sessionClose h exported
            | None => exported
            end)
      /\ handleToggleSession microphone session pressed
         = match sessionPromiseRef s with
           | Some h => sessionClose h pressed
           | None => pressed
           end
      /\ idle (onclose pressed)
      /\ onclose (onclose pressed) = onclose pressed)
  /\ (isSessionActive s = false ->
      let started := handleToggleSession microphone session s in
      transcript started = []
      /\ match microphone with
         | Some stream =>
             status started = CONNECTING
             /\ sessionPromiseRef started = Some session
             /\ mediaStreamRef started = Some stream
         | None =>
             status started = IDLE
             /\ alerts (world started) = alerts (world s) ++ [startFailedNotice]
         end).
Proof.
  split; [|split; [|split]].
  - pose proof (onclose_idle s) as Hidle.
    split; [now apply onclose_noop|].
    destruct Hidle as (Hst & Hact & Hh & Hq & Hrest).
    split; [assumption|]. split; [assumption|]. split; [assumption|].
    apply onclose_idle.
  - apply onclose_noop.
  - intros Hact pressed. subst pressed.
    destruct (stopBranch_pressed_again s) as [Hagain Hhandle].
    unfold handleToggleSession at 3. fold (handleToggleSession microphone session s).
    unfold handleToggleSession, handleToggleSessionWithExport.
    rewrite Hact, Hagain, Hact.
    split; [reflexivity|]. split; [|split; [|split]].
    + unfold stopBranchWithExport, handleEmailTranscript, stopBranch.
      destruct (transcript s); reflexivity.
    + unfold stopBranch at 1. now rewrite Hhandle.
    + apply onclose_idle.
    + apply onclose_noop, onclose_idle.
  - intros Hact started. subst started.
    unfold handleToggleSession. rewrite Hact.
    split; [unfold startBranch; now destruct microphone|].
    unfold startBranch. destruct microphone; cbn; repeat split.
Qed.

Lemma stop_cleanup_idempotent_witness :
  onclose stoppedApp = stoppedApp
  /\ (handleToggleSession None 1%nat activeApp = sessionClose 1%nat activeApp
      /\ idle (onclose (handleToggleSession None 1%nat activeApp)))
  /\ transcript (handleToggleSession (Some (mkStream false)) 2%nat stoppedApp) = [].
Proof.
  split; [|split].
  - apply (proj1 (proj2 (stop_cleanup_idempotent None 1%nat stoppedApp))).
    unfold idle, tornDown; cbn. repeat split; reflexivity.
  - destruct (proj1 (proj2 (proj2 (stop_cleanup_idempotent None 1%nat activeApp))) eq_refl)
      as (Hpress & _ & _ & Hidle & _).
    split; [exact Hpress|exact Hidle].
  - apply (proj2 (proj2 (proj2
             (stop_cleanup_idempotent (Some (mkStream false)) 2%nat stoppedApp))) eq_refl).
Defined.

(** C6 as worded fails.  The component has no stop but the session button.
    After a stop (the button, then the close) the session is at rest with
    its transcript; the button pressed once more is not a stop that changes
    nothing: it empties the transcript and starts the next session, so two
    stops in a row do not end where one ends. *)
Lemma stop_on_idle_starts_counterexample :
  let stop := fun s => onclose (handleToggleSession (Some (mkStream false)) 2%nat s) in
  let press := handleToggleSession (Some (mkStream false)) 2%nat in
  stop activeApp = stoppedApp
  /\ idle stoppedApp
  /\ transcript stoppedApp = [ imageEntry drawingUrl ]
  /\ status (press stoppedApp) = CONNECTING
  /\ sessionPromiseRef (press stoppedApp) = Some 2%nat
  /\ transcript (press stoppedApp) = []
  /\ press stoppedApp <> stoppedApp
  /\ stop (stop activeApp) <> stop activeApp.
Proof.
  cbv beta zeta.
  assert (Hstop : onclose (handleToggleSession (Some (mkStream false)) 2%nat activeApp)
                  = stoppedApp) by (vm_compute; reflexivity).
  rewrite Hstop.
  split; [reflexivity|].
  split; [unfold idle, tornDown; cbn; repeat split; reflexivity|].
  split; [vm_compute; reflexivity|].
  split; [vm_compute; reflexivity|].
  split; [vm_compute; reflexivity|].
  split; [vm_compute; reflexivity|].
  split.
  - intros H. apply (f_equal transcript) in H. vm_compute in H. discriminate H.
  - intros H. apply (f_equal transcript) in H. vm_compute in H. discriminate H.
Qed.

Lemma transcript_stopSession (s : App) : transcript (stopSession s) = transcript s.
Proof.
  unfold stopSession. unfold_handlers. now destruct (sessionPromiseRef s).
Qed.

Lemma transcript_alert (m : string) (s : App) : transcript (alert m s) = transcript s.
Proof.
  reflexivity.
Qed.

Lemma transcript_startBranch (microphone : option MediaStream) (session : LiveSession)
  (s : App) : transcript (startBranch microphone session s) = [].
Proof.
  unfold startBranch. now destruct microphone.
Qed.

Lemma commitTurn_transcript_length (s s' : App) :
  commitTurn s = Ok s' -> (length (transcript s) <= length (transcript s'))%nat.
Proof.
  unfold commitTurn. destruct (mergeBranch s).
  - destruct (setLastText _ _) as [updated|] eqn:Hu; cbn [bind]; [|discriminate].
    intros [= <-]. apply setLastText_length in Hu.
    unfold finishTurn; cbn. rewrite transcript_appendEntries, length_app. cbn. lia.
  - intros [= <-].
    unfold finishTurn; cbn. rewrite transcript_appendEntries, length_app. lia.
Qed.

Lemma onmessage_transcript_length decodeAudioData (currentTime : Q)
  (message : Msg.LiveServerMessage) (s s' : App) :
  onmessage decodeAudioData currentTime message s = Ok s' ->
  (length (transcript s) <= length (transcript s'))%nat.
Proof.
  unfold onmessage. destruct (Msg.serverContent message) as [sc|].
  - destruct (accumulate_frame sc s) as (_ & Ha & _).
    destruct (interrupt_frame (Msg.interrupted sc) (accumulate sc s)) as (_ & Hi & _).
    cbv zeta in Hi.
    set (s2 := if Msg.interrupted sc then stopAllPlayback (accumulate sc s)
               else accumulate sc s) in *.
    pose proof (audioStep_frame decodeAudioData currentTime (Msg.modelTurn sc) s2) as Hs.
    destruct (audioStep decodeAudioData currentTime (Msg.modelTurn sc) s2) as [s3|];
      cbn [bind]; [|discriminate].
    destruct Hs as (_ & Hs & _).
    assert (E : transcript s3 = transcript s)
      by (unfold reconcilerView in Hs, Hi; congruence).
    destruct (Msg.turnComplete sc).
    + intros Hc. apply commitTurn_transcript_length in Hc. now rewrite <- E.
    + intros [= <-]. now rewrite E.
  - now intros [= <-].
Qed.

(** C10.  Stopping a session, with or without the export of the first
    version, leaves the transcript as it was.  Of all the
    events only the start of a session empties it, whether or not the
    microphone is granted; every other event keeps or lengthens it; and a
    session that opens right after its start opens on an empty transcript. *)
Theorem transcript_cleared_only_at_start decodeAudioData (s : App) (e : Event)
  (stream : MediaStream) (session : LiveSession) :
  transcript (stopSession s) = transcript s
  /\ transcript (stopSessionWithExport s) = transcript s
  /\ match step decodeAudioData s e with
     | Ok s' =>
         if startsSession s e then transcript s' = []
         else (length (transcript s) <= length (transcript s'))%nat
     | Throw _ => True
     end
  /\ exists s', onopen (startBranch (Some stream) session s) = Ok s'
                /\ transcript s' = [].
Proof.
  split; [apply transcript_stopSession|]. split; [|split].
  - destruct (stopSessionWithExport_cases s) as [H | H]; rewrite H;
      [|rewrite transcript_alert]; apply transcript_stopSession.
  - destruct e; cbn [step startsSession].
    + unfold handleToggleSession. destruct (isSessionActive s); cbn [negb].
      * unfold stopBranch, sessionClose. now destruct (sessionPromiseRef s).
      * apply transcript_startBranch.
    + unfold onopen; cbn. now destruct (inputAudioContextRef s).
    + destruct (onmessage decodeAudioData currentTime message s) eqn:H; [|exact I].
      now apply onmessage_transcript_length in H.
    + unfold_handlers. cbn. lia.
    + unfold_handlers. cbn. lia.
    + unfold_handlers. split_tests; rewrite ?length_app; cbn; lia.
    + unfold_handlers. split_tests; rewrite ?length_app; cbn; lia.
    + cbn. lia.
    + unfold handleToggleSessionWithExport. destruct (isSessionActive s); cbn [negb].
      * unfold_handlers. split_tests; cbn; lia.
      * apply transcript_startBranch.
    + unfold_handlers. cbn. split_tests; rewrite ?length_app; cbn; lia.
  - unfold onopen, startBranch. cbn. eexists. split; reflexivity.
Qed.

(** ** Sending an image *)

Lemma sendImageData_frame (guardNotice errorNotice imageDataUrl : string)
  (sendThrows : bool) (s : App) :
  sessionView (sendImageData guardNotice errorNotice imageDataUrl sendThrows s)
  = sessionView s
  /\ status (sendImageData guardNotice errorNotice imageDataUrl sendThrows s) = status s.
Proof.
  unfold sendImageData. unfold_handlers. split_tests; split; reflexivity.
Qed.

(** C8.  Sending an image never touches the session handle, the activity
    flag, the capture objects or the status.  Without a session handle it
    only raises a notice: transcript and outbound media stay as they were.
    With a handle, [handleSendDrawing] first appends the image-only USER
    entry, then either transmits the image or, on a send error, raises a
    notice and transmits nothing.  [handleFileSelect] of the first version
    does the same once the file is an image and has been read. *)
Theorem sendImage_contract (imageDataUrl fileType base64Data : string)
  (readResult : option string) (sendThrows : bool) (s : App) :
  let drawn := handleSendDrawing imageDataUrl sendThrows s in
  let picked := handleFileSelect fileType readResult base64Data sendThrows s in
  (sessionView drawn = sessionView s /\ status drawn = status s
   /\ sessionView picked = sessionView s /\ status picked = status s)
  /\ match sessionPromiseRef s with
     | None =>
         transcript drawn = transcript s
         /\ sentMedia (world drawn) = sentMedia (world s)
         /\ alerts (world drawn)
            = alerts (world s) ++ ["Please start the session before sending a drawing."%string]
         /\ transcript picked = transcript s
         /\ sentMedia (world picked) = sentMedia (world s)
         /\ exists notice, alerts (world picked) = alerts (world s) ++ [notice]
     | Some _ =>
         transcript drawn = transcript s ++ [mkEntry USER EmptyString (Some imageDataUrl)]
         /\ (if sendThrows
             then sentMedia (world drawn) = sentMedia (world s)
                  /\ alerts (world drawn)
                     = alerts (world s) ++ ["There was an error sending the drawing."%string]
             else (exists media, sentMedia (world drawn) = sentMedia (world s) ++ [media]
                                 /\ alerts (world drawn) = alerts (world s))
                  \/ (splitAt1 imageDataUrl = None \/ splitAt1 imageDataUrl = Some EmptyString)
                     /\ sentMedia (world drawn) = sentMedia (world s)
                     /\ alerts (world drawn)
                        = alerts (world s)
                          ++ ["There was an error sending the drawing."%string])
         /\ match readResult with
            | Some url =>
                if String.prefix "image/" fileType then
                  transcript picked = transcript s ++ [mkEntry USER EmptyString (Some url)]
                  /\ (if sendThrows
                      then sentMedia (world picked) = sentMedia (world s)
                           /\ alerts (world picked)
                              = alerts (world s)
                                ++ ["There was an error sending the image."%string]
                      else sentMedia (world picked)
                           = sentMedia (world s)
                             ++ [Msg.mkBlob (Some base64Data) (Some fileType)]
                           /\ alerts (world picked) = alerts (world s))
                else transcript picked = transcript s
                     /\ sentMedia (world picked) = sentMedia (world s)
            | None => transcript picked = transcript s
                      /\ sentMedia (world picked) = sentMedia (world s)
            end
     end.
Proof.
  intros drawn picked. split.
  - subst drawn picked. unfold handleSendDrawing.
    destruct (sendImageData_frame "Please start the session before sending a drawing."
                "There was an error sending the drawing." imageDataUrl sendThrows s)
      as [H1 H2].
    rewrite H1, H2. unfold handleFileSelect, readerOnload, readerOnerror.
    unfold_handlers. cbn. split_tests; repeat split.
  - subst drawn picked.
    unfold handleSendDrawing, handleFileSelect, readerOnload, readerOnerror, sendImageData.
    cbn [sessionPromiseRef putTranscript].
    destruct (sessionPromiseRef s) as [h|].
    + split; [unfold_handlers; split_tests; reflexivity|]. split.
      * destruct sendThrows; cbn [negb].
        -- destruct (splitAt1 imageDataUrl); rewrite ?andb_false_r; split; reflexivity.
        -- destruct (splitAt1 imageDataUrl) as [b|]; cbn.
           ++ rewrite andb_true_r. destruct b as [|c b']; cbn.
              ** right. repeat split. now right.
              ** left. eexists. split; reflexivity.
           ++ right. repeat split. now left.
      * destruct readResult as [url|];
          destruct (String.prefix "image/" fileType); cbn;
          try destruct sendThrows; cbn; repeat split.
    + cbn. repeat split;
        destruct (String.prefix "image/" fileType); cbn;
        try reflexivity; eexists; reflexivity.
Qed.

(** [handleCropComplete] of the second version is [handleSendDrawing] with
    other wordings of the two notices. *)
Lemma handleCropComplete_as_drawing (imageDataUrl : string) (sendThrows : bool) (s : App) :
  withoutAlerts (handleCropComplete imageDataUrl sendThrows s)
  = withoutAlerts (handleSendDrawing imageDataUrl sendThrows s)
  /\ length (alerts (world (handleCropComplete imageDataUrl sendThrows s)))
     = length (alerts (world (handleSendDrawing imageDataUrl sendThrows s))).
Proof.
  unfold handleCropComplete, handleSendDrawing, sendImageData.
  destruct (sessionPromiseRef s); [|split; cbn; rewrite ?length_app; reflexivity].
  destruct (splitAt1 imageDataUrl) as [b|]; [destruct (truthy b && negb sendThrows)|];
    split; cbn; rewrite ?length_app; reflexivity.
Qed.

(** ** Pending turn text *)

Lemma append_empty_r (a : string) : (a ++ EmptyString)%string = a.
Proof.
  induction a as [|c a IH]; cbn; [reflexivity|now rewrite IH].
Qed.

Lemma append_assoc (a b c : string) : ((a ++ b) ++ c)%string = (a ++ (b ++ c))%string.
Proof.
  induction a as [|x a IH]; cbn; [reflexivity|now rewrite IH].
Qed.

Lemma truthy_false (a : string) : truthy a = false -> a = EmptyString.
Proof.
  destruct a; [reflexivity|discriminate].
Qed.

Lemma commitTurn_accumulators (s s' : App) :
  commitTurn s = Ok s' ->
  userTranscriptionRef s' = EmptyString /\ modelTranscriptionRef s' = EmptyString.
Proof.
  unfold commitTurn. destruct (mergeBranch s).
  - destruct (setLastText _ _); cbn; [|discriminate]. now intros [= <-].
  - now intros [= <-].
Qed.

Lemma accumulate_accumulators (sc : Msg.ServerContent) (currentTime : Q) (s : App) :
  let e := EvMessage currentTime (Msg.mkMessage (Some sc)) in
  userTranscriptionRef (accumulate sc s) = (userTranscriptionRef s ++ userFragment e)%string
  /\ modelTranscriptionRef (accumulate sc s)
     = (modelTranscriptionRef s ++ tutorFragment e)%string.
Proof.
  unfold accumulate; cbn.
  destruct (Msg.inputTranscription sc), (Msg.outputTranscription sc); cbn;
    rewrite ?append_empty_r; split; reflexivity.
Qed.

(** What one step does to the two accumulators: a commit empties both, any
    other event appends the text it brings, which is empty unless the event
    is a message with transcription. *)
Lemma step_accumulators decodeAudioData (s s' : App) (e : Event) :
  step decodeAudioData s e = Ok s' ->
  if isCommit e
  then userTranscriptionRef s' = EmptyString /\ modelTranscriptionRef s' = EmptyString
  else userTranscriptionRef s' = (userTranscriptionRef s ++ userFragment e)%string
       /\ modelTranscriptionRef s' = (modelTranscriptionRef s ++ tutorFragment e)%string.
Proof.
  destruct e; cbn [step isCommit userFragment tutorFragment];
    rewrite ?append_empty_r.
  - intros [= <-]. unfold_handlers. split_tests; split; reflexivity.
  - unfold onopen; cbn. destruct (inputAudioContextRef s); [|discriminate].
    intros [= <-]. split; reflexivity.
  - unfold onmessage. destruct message as [[sc|]]; cbn [Msg.serverContent].
    + destruct (accumulate_accumulators sc currentTime s) as [Hu Hm].
      cbn [userFragment tutorFragment Msg.serverContent] in Hu, Hm.
      destruct (interrupt_frame (Msg.interrupted sc) (accumulate sc s)) as (_ & Hi & _).
      cbv zeta in Hi.
      set (s2 := if Msg.interrupted sc then stopAllPlayback (accumulate sc s)
                 else accumulate sc s) in *.
      pose proof (audioStep_frame decodeAudioData currentTime (Msg.modelTurn sc) s2) as Hs.
      destruct (audioStep decodeAudioData currentTime (Msg.modelTurn sc) s2) as [s3|];
        cbn [bind]; [|discriminate].
      destruct Hs as (_ & Hs & _).
      destruct (Msg.turnComplete sc).
      * apply commitTurn_accumulators.
      * intros [= <-]. unfold reconcilerView in Hs, Hi. split; congruence.
    + intros [= <-]. rewrite !append_empty_r. split; reflexivity.
  - intros [= <-]. unfold_handlers. split; reflexivity.
  - intros [= <-]. unfold_handlers. split; reflexivity.
  - intros [= <-]. unfold_handlers. split_tests; split; reflexivity.
  - intros [= <-]. unfold_handlers. split_tests; split; reflexivity.
  - intros [= <-]. split; reflexivity.
  - intros [= <-]. unfold_handlers. split_tests; split; reflexivity.
  - intros [= <-]. unfold_handlers. cbn. split_tests; split; reflexivity.
Qed.

Lemma run_snoc decodeAudioData (events : list Event) (e : Event) :
  forall s,
    run decodeAudioData s (events ++ [e])
    = (s1 <- run decodeAudioData s events ;; step decodeAudioData s1 e).
Proof.
  induction events as [|e0 rest IH]; intros s; cbn.
  - now destruct (step decodeAudioData s e).
  - destruct (step decodeAudioData s e0); cbn; [apply IH|reflexivity].
Qed.

Lemma joined_snoc (fragments : list string) (last : string) :
  joined (fragments ++ [last]) = (joined fragments ++ last)%string.
Proof.
  unfold joined. induction fragments as [|f rest IH]; cbn.
  - apply append_empty_r.
  - now rewrite IH, append_assoc.
Qed.

Lemma joined_truthy (fragment : Event -> string) (events : list Event) :
  truthy (joined (map fragment events)) = true ->
  existsb (fun e => truthy (fragment e)) events = true.
Proof.
  induction events as [|e rest IH]; cbn.
  - discriminate.
  - destruct (fragment e) as [|c f]; cbn; [exact IH|reflexivity].
Qed.

Lemma sinceCommit_snoc (events : list Event) (e : Event) :
  sinceCommit (events ++ [e]) = if isCommit e then [] else sinceCommit events ++ [e].
Proof.
  unfold sinceCommit. now rewrite fold_left_app.
Qed.

(** In every state reached from the initial one the accumulators hold the
    text brought since the last commit. *)
Lemma accumulators_sinceCommit decodeAudioData (events : list Event) :
  forall s,
    run decodeAudioData initialApp events = Ok s ->
    userTranscriptionRef s = joined (map userFragment (sinceCommit events))
    /\ modelTranscriptionRef s = joined (map tutorFragment (sinceCommit events)).
Proof.
  induction events as [|e events IH] using rev_ind; intros s Hrun.
  - injection Hrun as <-. split; reflexivity.
  - rewrite run_snoc in Hrun.
    destruct (run decodeAudioData initialApp events) as [s1|] eqn:Hprefix; [|discriminate].
    cbn [bind] in Hrun. apply step_accumulators in Hrun.
    destruct (IH s1 eq_refl) as [Hu Hm].
    rewrite sinceCommit_snoc. destruct (isCommit e).
    + exact Hrun.
    + rewrite !map_app. cbn [map]. rewrite !joined_snoc, <- Hu, <- Hm. exact Hrun.
Qed.

Section OpenTurn.

Variable decodeAudioData : string -> AudioBuffer.
Variable accumulator : App -> string.
Variable fragment : Event -> string.

Hypothesis step_accumulator :
  forall s s' e,
    step decodeAudioData s e = Ok s' ->
    accumulator s' = if isCommit e then EmptyString
                     else (accumulator s ++ fragment e)%string.

(** While the session goes on, an accumulator that is empty or inside an
    open turn stays so. *)
Lemma openTurn_goes_on (events : list Event) (s s' : App) (e : Event) :
  step decodeAudioData s e = Ok s' ->
  sessionBoundary e = false ->
  (truthy (accumulator s) = true -> openTurn fragment events) ->
  truthy (accumulator s') = true ->
  openTurn fragment (events ++ [e]).
Proof.
  intros Hstep Hinside Hturn Hacc. apply step_accumulator in Hstep.
  destruct (isCommit e) eqn:Hcommit.
  - rewrite Hstep in Hacc. discriminate.
  - destruct (truthy (accumulator s)) eqn:Hbefore.
    + destruct (Hturn eq_refl) as (before & e0 & after & -> & Hfrag & Hc0 & Hquiet).
      exists before, e0, (after ++ [e]). repeat split; try assumption.
      * now rewrite <- app_assoc.
      * rewrite forallb_app, Hquiet. cbn. now rewrite Hcommit, Hinside.
    + apply truthy_false in Hbefore. rewrite Hbefore in Hstep. cbn in Hstep.
      exists events, e, []. repeat split; try assumption. congruence.
Qed.

End OpenTurn.




(** What stays in the accumulators when a session closes inside a turn goes
    into the first entry committed by the next session. *)
Lemma cut_turn_text_carries_over :
  exists s,
    run (fun _ => oneSecond) afterCutTurn
      [ EvOpen; EvMessage 0 (transcriptionMessage (Some "2"%string) None true) ]
    = Ok s
    /\ transcript s = [ mkEntry USER "2+2" None ].
Proof.
  eexists. split; vm_compute; reflexivity.
Qed.

(** * Further properties *)

(** ** Playback scheduler *)

Lemma dispatchQueue_closed (q : list ScheduledPlayback) :
  forall s,
    started (world (dispatchQueue q s))
    = started (world s) ++ startCalls (nodesCreated (world s)) q
    /\ audioSourcesRef (dispatchQueue q s)
       = audioSourcesRef s ++ seq (nodesCreated (world s)) (length q)
    /\ nodesCreated (world (dispatchQueue q s)) = (nodesCreated (world s) + length q)%nat
    /\ stopCalls (world (dispatchQueue q s)) = stopCalls (world s)
    /\ audioPlaybackQueueRef (dispatchQueue q s)
       = match q with [] => audioPlaybackQueueRef s | _ :: _ => [] end.
Proof.
  induction q as [|item rest IH]; intros s; cbn [dispatchQueue].
  - cbn. rewrite !app_nil_r, Nat.add_0_r. repeat split.
  - match goal with |- context [dispatchQueue rest ?s0] =>
      destruct (IH s0) as (H1 & H2 & H3 & H4 & H5) end.
    rewrite H1, H2, H3, H4, H5. cbn.
    rewrite <- !app_assoc. cbn.
    repeat split; try lia.
    now destruct rest.
Qed.

(** X1.  With an output context, [processAudioPlayback] starts every queued
    item, in queue order, with its own buffer and start time, each on a
    source of its own that joins the live set, and leaves the queue empty;
    it stops nothing.  Without an output context it does nothing. *)
Theorem processAudioPlayback_dispatches (s : App) :
  match outputAudioContextRef s with
  | None => processAudioPlayback s = s
  | Some _ =>
      started (world (processAudioPlayback s))
      = started (world s) ++ startCalls (nodesCreated (world s)) (audioPlaybackQueueRef s)
      /\ audioSourcesRef (processAudioPlayback s)
         = audioSourcesRef s
           ++ seq (nodesCreated (world s)) (length (audioPlaybackQueueRef s))
      /\ nodesCreated (world (processAudioPlayback s))
         = (nodesCreated (world s) + length (audioPlaybackQueueRef s))%nat
      /\ stopCalls (world (processAudioPlayback s)) = stopCalls (world s)
      /\ audioPlaybackQueueRef (processAudioPlayback s) = []
  end.
Proof.
  unfold processAudioPlayback. destruct (outputAudioContextRef s); [|reflexivity].
  destruct (dispatchQueue_closed (audioPlaybackQueueRef s) s) as (H1 & H2 & H3 & H4 & H5).
  repeat split; try assumption.
  rewrite H5. now destruct (audioPlaybackQueueRef s).
Qed.

Lemma map_startCalls (first : SourceNode) (q : list ScheduledPlayback) :
  map (fun c => (startWhen c, startBuffer c)) (startCalls first q)
  = map (fun p => (startTime p, buffer p)) q.
Proof.
  revert first. induction q as [|item rest IH]; intros first; cbn.
  - reflexivity.
  - now rewrite IH.
Qed.

Lemma processAudioPlayback_scheduled (s : App) :
  scheduled (processAudioPlayback s) = scheduled s.
Proof.
  unfold processAudioPlayback. destruct (outputAudioContextRef s); [|reflexivity].
  destruct (dispatchQueue_closed (audioPlaybackQueueRef s) s) as (H1 & _ & _ & _ & H5).
  unfold scheduled. rewrite H1, H5, map_app, map_startCalls, <- app_assoc.
  destruct (audioPlaybackQueueRef s); cbn; rewrite ?app_nil_r; reflexivity.
Qed.

Lemma enqueue_scheduled (currentTime : Q) (b : AudioBuffer) (s : App) :
  scheduled (enqueue currentTime b s)
  = scheduled s ++ [(Qmax (nextStartTimeRef s) currentTime, b)].
Proof.
  unfold enqueue. rewrite processAudioPlayback_scheduled.
  unfold scheduled. cbn. rewrite map_app, app_assoc. reflexivity.
Qed.

Lemma noOverlap_later (cursor cursor' : Q) (l : list (Q * AudioBuffer)) :
  (cursor <= cursor')%Q -> noOverlap cursor' l -> noOverlap cursor l.
Proof.
  destruct l as [|[t b] rest]; cbn; [trivial|].
  intros Hle [Ht Hrest]. split; [lra|assumption].
Qed.

(** X2.  Buffers never overlap.  For every run of enqueues the buffers are
    scheduled in arrival order, each with its own buffer, and each starts no
    earlier than the end (start plus duration) of the one scheduled before it
    in the run, the first no earlier than the cursor the run began with. *)
Theorem enqueue_no_overlap (arrivals : list (Q * AudioBuffer)) :
  forall s, exists new,
    scheduled (enqueueAll arrivals s) = scheduled s ++ new
    /\ map snd new = map snd arrivals
    /\ noOverlap (nextStartTimeRef s) new.
Proof.
  induction arrivals as [|[currentTime b] rest IH]; intros s.
  - exists []. rewrite app_nil_r. repeat split.
  - destruct (IH (enqueue currentTime b s)) as (new & Hnew & Hbuffers & Hchain).
    exists ((Qmax (nextStartTimeRef s) currentTime, b) :: new).
    cbn [enqueueAll]. rewrite Hnew, enqueue_scheduled, <- app_assoc.
    split; [reflexivity|]. split; [cbn; now rewrite Hbuffers|].
    cbn [noOverlap]. split; [apply Q.le_max_l|].
    now rewrite enqueue_nextStartTime in Hchain.
Qed.

(** Once the cursor is not behind the clock, every buffer enqueued at that
    clock reading starts at the cursor it finds. *)
Lemma enqueueAll_backToBack (currentTime : Q) (buffers : list AudioBuffer) :
  forall s,
    (currentTime <= nextStartTimeRef s)%Q ->
    exists new,
      scheduled (enqueueAll (map (pair currentTime) buffers) s) = scheduled s ++ new
      /\ map snd new = buffers
      /\ backToBack (nextStartTimeRef s) new
           (nextStartTimeRef (enqueueAll (map (pair currentTime) buffers) s)).
Proof.
  induction buffers as [|b rest IH]; intros s Hle.
  - exists []. cbn. rewrite app_nil_r. repeat split; reflexivity.
  - pose proof (duration_nonneg b) as Hd.
    assert (Hmax : (Qmax (nextStartTimeRef s) currentTime == nextStartTimeRef s)%Q)
      by (apply Q.max_l; exact Hle).
    destruct (IH (enqueue currentTime b s)) as (new & Hnew & Hbuffers & Hchain).
    + rewrite enqueue_nextStartTime. lra.
    + exists ((Qmax (nextStartTimeRef s) currentTime, b) :: new).
      cbn [map enqueueAll]. rewrite Hnew, enqueue_scheduled, <- app_assoc.
      split; [reflexivity|]. split; [cbn; now rewrite Hbuffers|].
      cbn [backToBack]. split; [exact Hmax|].
      now rewrite enqueue_nextStartTime in Hchain.
Qed.

(** X3.  A burst plays back to back.  When a non-empty run of buffers is
    enqueued at one clock reading, the buffers are scheduled in arrival
    order, the first at the later of cursor and clock, each next one at the
    very time the one before it ends (its start plus its duration, as the
    code adds them), and the cursor is left where the last one ends. *)
Theorem enqueue_burst_gapless (currentTime : Q) (b : AudioBuffer)
  (rest : list AudioBuffer) (s : App) :
  let s' := enqueueAll (map (pair currentTime) (b :: rest)) s in
  exists new,
    scheduled s' = scheduled s ++ new
    /\ map snd new = b :: rest
    /\ backToBack (Qmax (nextStartTimeRef s) currentTime) new (nextStartTimeRef s').
Proof.
  intros s'. subst s'. cbn [map enqueueAll].
  pose proof (duration_nonneg b) as Hd.
  pose proof (Q.le_max_r (nextStartTimeRef s) currentTime) as Hr.
  destruct (enqueueAll_backToBack currentTime rest (enqueue currentTime b s))
    as (new & Hnew & Hbuffers & Hchain).
  - rewrite enqueue_nextStartTime. lra.
  - exists ((Qmax (nextStartTimeRef s) currentTime, b) :: new).
    rewrite Hnew, enqueue_scheduled, <- app_assoc.
    split; [reflexivity|]. split; [cbn; now rewrite Hbuffers|].
    cbn [backToBack]. split; [reflexivity|].
    now rewrite enqueue_nextStartTime in Hchain.
Qed.

(** *** What the events do to the scheduler *)

Lemma commitTurn_schedulerView (s s' : App) :
  commitTurn s = Ok s' -> schedulerView s' = schedulerView s.
Proof.
  intros H. apply commitTurn_frame in H.
  destruct H as (H1 & H2 & H3 & _ & _ & _ & H7).
  unfold schedulerView. now rewrite H1, H2, H3, H7.
Qed.

Lemma step_schedulerMove decodeAudioData (s s' : App) (e : Event) :
  step decodeAudioData s e = Ok s' -> schedulerMove s s'.
Proof.
  destruct e; cbn [step].
  - intros [= <-]. apply moveSame. unfold_handlers. split_tests; reflexivity.
  - unfold onopen; cbn. destruct (inputAudioContextRef s); [|discriminate].
    intros [= <-]. apply moveSame. reflexivity.
  - unfold onmessage. destruct (Msg.serverContent message) as [sc|];
      [|intros [= <-]; apply moveSame; reflexivity].
    set (s1 := accumulate sc s).
    assert (M1 : schedulerMove s s1).
    { apply moveSame. subst s1. unfold accumulate. split_tests; reflexivity. }
    set (s2 := if Msg.interrupted sc then stopAllPlayback s1 else s1).
    assert (M2 : schedulerMove s s2).
    { subst s2. destruct (Msg.interrupted sc); [|exact M1].
      eapply moveThen; [exact M1|apply moveStop]. }
    unfold audioStep.
    destruct (audioPayload (Msg.modelTurn sc)) as [d|].
    + cbn [setStatus outputAudioContextRef].
      destruct (outputAudioContextRef s2) eqn:Hctx; cbn [bind]; [|discriminate].
      assert (M3 : schedulerMove s (enqueue currentTime (decodeAudioData d)
                                      (setStatus SPEAKING s2))).
      { eapply moveThen; [exact M2|].
        eapply moveThen; [apply (moveSame s2 (setStatus SPEAKING s2)); reflexivity|].
        apply moveEnqueue. cbn. rewrite Hctx. discriminate. }
      destruct (Msg.turnComplete sc).
      * intros H. eapply moveThen; [exact M3|].
        apply moveSame. now apply commitTurn_schedulerView.
      * intros [= <-]. exact M3.
    + assert (M3 : forall st, schedulerMove s (setStatus st s2)).
      { intros st. eapply moveThen; [exact M2|]. apply moveSame. reflexivity. }
      destruct (Msg.modelTurn sc); cbn [bind];
        (destruct (Msg.turnComplete sc);
         [intros H; eapply moveThen; [apply M3|];
          apply moveSame; apply commitTurn_schedulerView; exact H
         |intros [= <-]; apply M3]).
  - intros [= <-]. unfold onclose.
    eapply moveThen; [|apply moveStop]. apply moveSame. reflexivity.
  - intros [= <-]. unfold onerror.
    eapply moveThen; [|apply moveStop]. apply moveSame. reflexivity.
  - intros [= <-]. apply moveSame. unfold_handlers. split_tests; reflexivity.
  - intros [= <-]. apply moveSame. unfold_handlers. split_tests; reflexivity.
  - intros [= <-]. apply moveEnded.
  - intros [= <-]. apply moveSame. unfold_handlers. split_tests; reflexivity.
  - intros [= <-]. apply moveSame. unfold_handlers. cbn. split_tests; reflexivity.
Qed.

Section SchedulerInvariant.

Variable holds : App -> Prop.

Hypothesis holds_view :
  forall s s', schedulerView s' = schedulerView s -> holds s -> holds s'.
Hypothesis holds_stop : forall s, holds s -> holds (stopAllPlayback s).
Hypothesis holds_enqueue :
  forall s currentTime b,
    outputAudioContextRef s <> None -> holds s -> holds (enqueue currentTime b s).
Hypothesis holds_ended : forall s source, holds s -> holds (endedListener source s).

Lemma schedulerMove_keeps (s s' : App) : schedulerMove s s' -> holds s -> holds s'.
Proof.
  induction 1; intros Hs; eauto.
Qed.

Lemma run_keeps decodeAudioData (events : list Event) :
  forall s s', run decodeAudioData s events = Ok s' -> holds s -> holds s'.
Proof.
  induction events as [|e rest IH]; intros s s' Hrun Hs; cbn [run] in Hrun.
  - now injection Hrun as <-.
  - destruct (step decodeAudioData s e) as [s1|] eqn:Hstep; [|discriminate].
    cbn [bind] in Hrun. apply (IH s1 s' Hrun).
    apply (schedulerMove_keeps s s1); [|assumption].
    now apply (step_schedulerMove decodeAudioData s s1 e).
Qed.

End SchedulerInvariant.

Lemma enqueue_closed (currentTime : Q) (b : AudioBuffer) (s : App) :
  outputAudioContextRef s <> None ->
  let t := Qmax (nextStartTimeRef s) currentTime in
  let q := audioPlaybackQueueRef s ++ [mkScheduled b t] in
  started (world (enqueue currentTime b s))
  = started (world s) ++ startCalls (nodesCreated (world s)) q
  /\ audioSourcesRef (enqueue currentTime b s)
     = audioSourcesRef s ++ seq (nodesCreated (world s)) (length q)
  /\ nodesCreated (world (enqueue currentTime b s)) = (nodesCreated (world s) + length q)%nat
  /\ stopCalls (world (enqueue currentTime b s)) = stopCalls (world s)
  /\ audioPlaybackQueueRef (enqueue currentTime b s) = [].
Proof.
  intros Hctx t q. unfold enqueue, processAudioPlayback.
  cbn [outputAudioContextRef putNextStartTime putQueue].
  destruct (outputAudioContextRef s); [|contradiction].
  match goal with |- context [dispatchQueue ?q0 ?s0] =>
    destruct (dispatchQueue_closed q0 s0) as (H1 & H2 & H3 & H4 & H5) end.
  rewrite H1, H2, H3, H4, H5. cbn.
  repeat split. subst q t. now destruct (audioPlaybackQueueRef s).
Qed.

Lemma NoDup_app_filter {A : Type} (f : A -> bool) (a b : list A) :
  NoDup (a ++ b) -> NoDup (a ++ filter f b).
Proof.
  induction a as [|x a IH]; cbn; intros H.
  - now apply NoDup_filter.
  - apply NoDup_cons_iff in H as [Hx Hrest]. apply NoDup_cons_iff. split.
    + intros Hin. apply Hx. apply in_app_iff in Hin as [Hin|Hin].
      * apply in_app_iff. now left.
      * apply in_app_iff. right. now apply filter_In in Hin.
    + now apply IH.
Qed.

Lemma NoDup_snoc {A : Type} (x : A) (l : list A) :
  ~ In x l -> NoDup l -> NoDup (l ++ [x]).
Proof.
  intros Hx Hl. rewrite <- (rev_involutive (l ++ [x])). apply NoDup_rev.
  rewrite rev_app_distr. cbn. constructor.
  - now rewrite <- in_rev.
  - now apply NoDup_rev.
Qed.

Lemma Forall_app_filter {A : Type} (P : A -> Prop) (f : A -> bool) (a b : list A) :
  Forall P (a ++ b) -> Forall P (a ++ filter f b).
Proof.
  rewrite !Forall_app. intros [Ha Hb]. split; [assumption|].
  rewrite Forall_forall in *. intros x Hx. apply Hb. now apply filter_In in Hx.
Qed.

Lemma sourcesTracked_view (s s' : App) :
  schedulerView s' = schedulerView s -> sourcesTracked s -> sourcesTracked s'.
Proof.
  unfold schedulerView, sourcesTracked. intros [= E1 E2 E3 E4 E5 E6].
  now rewrite E1, E3, E4, E5, E6.
Qed.

Lemma sourcesTracked_stop (s : App) : sourcesTracked s -> sourcesTracked (stopAllPlayback s).
Proof.
  unfold sourcesTracked. rewrite stopAllPlayback_eq. cbn.
  intros (_ & Hids & Hnodup & Hlt). rewrite !app_nil_r. repeat split; assumption.
Qed.

Lemma sourcesTracked_enqueue (s : App) (currentTime : Q) (b : AudioBuffer) :
  outputAudioContextRef s <> None ->
  sourcesTracked s -> sourcesTracked (enqueue currentTime b s).
Proof.
  intros Hctx (Hq & Hids & Hnodup & Hlt).
  destruct (enqueue_closed currentTime b s Hctx) as (H1 & H2 & H3 & H4 & H5).
  cbv zeta in H1, H2, H3. rewrite Hq in H1, H2, H3. cbn in H1, H2, H3.
  unfold sourcesTracked. rewrite H1, H2, H3, H4, H5.
  split; [reflexivity|]. split; [|split].
  - rewrite map_app, Hids. cbn. rewrite Nat.add_1_r, seq_S. reflexivity.
  - rewrite app_assoc. apply NoDup_snoc; [|assumption].
    intros Hin. rewrite Forall_forall in Hlt. apply Hlt in Hin. lia.
  - rewrite app_assoc. apply Forall_app. split.
    + eapply Forall_impl; [|exact Hlt]. cbn. intros n Hn. lia.
    + constructor; [lia|constructor].
Qed.

Lemma sourcesTracked_ended (s : App) (source : SourceNode) :
  sourcesTracked s -> sourcesTracked (endedListener source s).
Proof.
  unfold sourcesTracked, endedListener. cbn. intros (Hq & Hids & Hnodup & Hlt).
  repeat split; try assumption.
  - now apply NoDup_app_filter.
  - now apply Forall_app_filter.
Qed.

(** X4.  In every state reached from the initial one nothing waits in the
    playback queue, every source that is live or was stopped had been
    started, each start was made on a source of its own, and no source is
    both live and stopped or stopped twice. *)
Theorem sources_tracked decodeAudioData (events : list Event) (s : App) :
  run decodeAudioData initialApp events = Ok s ->
  audioPlaybackQueueRef s = []
  /\ NoDup (map startNode (started (world s)))
  /\ NoDup (stopCalls (world s) ++ audioSourcesRef s)
  /\ forall source,
      In source (stopCalls (world s) ++ audioSourcesRef s) ->
      In source (map startNode (started (world s))).
Proof.
  intros Hrun.
  assert (H : sourcesTracked s).
  { apply (run_keeps sourcesTracked sourcesTracked_view sourcesTracked_stop
             sourcesTracked_enqueue sourcesTracked_ended
             decodeAudioData events initialApp s Hrun).
    repeat split; constructor. }
  destruct H as (Hq & Hids & Hnodup & Hlt).
  split; [assumption|]. split; [rewrite Hids; apply seq_NoDup|].
  split; [assumption|].
  intros source Hin. rewrite Hids. apply in_seq.
  rewrite Forall_forall in Hlt. apply Hlt in Hin. lia.
Qed.

Lemma sources_tracked_witness :
  audioSourcesRef afterPlayedAndInterrupted = [2%nat]
  /\ stopCalls (world afterPlayedAndInterrupted) = [1%nat]
  /\ NoDup (stopCalls (world afterPlayedAndInterrupted)
            ++ audioSourcesRef afterPlayedAndInterrupted).
Proof.
  split; [reflexivity|]. split; [reflexivity|].
  apply (sources_tracked (fun _ => oneSecond) playedAndInterrupted
           afterPlayedAndInterrupted).
  vm_compute. reflexivity.
Defined.

Lemma startCalls_times (first : SourceNode) (q : list ScheduledPlayback) :
  Forall (fun p => (0 <= startTime p)%Q) q ->
  Forall (fun c => (0 <= startWhen c)%Q) (startCalls first q).
Proof.
  revert first. induction q as [|item rest IH]; intros first H; cbn.
  - constructor.
  - inversion H; subst. constructor; [assumption|now apply IH].
Qed.

Lemma timesNonNegative_view (s s' : App) :
  schedulerView s' = schedulerView s -> timesNonNegative s -> timesNonNegative s'.
Proof.
  unfold schedulerView, timesNonNegative. intros [= E1 E2 E3 E4 E5 E6].
  now rewrite E1, E2, E4.
Qed.

Lemma timesNonNegative_stop (s : App) :
  timesNonNegative s -> timesNonNegative (stopAllPlayback s).
Proof.
  unfold timesNonNegative. rewrite stopAllPlayback_eq. cbn.
  intros (_ & Hstarted & _). repeat split; [lra|assumption|constructor].
Qed.

Lemma timesNonNegative_enqueue (s : App) (currentTime : Q) (b : AudioBuffer) :
  outputAudioContextRef s <> None ->
  timesNonNegative s -> timesNonNegative (enqueue currentTime b s).
Proof.
  intros Hctx (Hcursor & Hstarted & Hqueue).
  destruct (enqueue_closed currentTime b s Hctx) as (H1 & _ & _ & _ & H5).
  cbv zeta in H1.
  pose proof (Q.le_max_l (nextStartTimeRef s) currentTime) as Hmax.
  pose proof (duration_nonneg b) as Hd.
  unfold timesNonNegative. rewrite H1, H5, enqueue_nextStartTime.
  split; [lra|]. split; [|constructor].
  apply Forall_app. split; [assumption|].
  apply startCalls_times. apply Forall_app. split; [assumption|].
  constructor; [cbn; lra|constructor].
Qed.

Lemma timesNonNegative_ended (s : App) (source : SourceNode) :
  timesNonNegative s -> timesNonNegative (endedListener source s).
Proof.
  intros H. exact H.
Qed.

(** X5.  In every state reached from the initial one the cursor is not
    negative and no source was started at a negative time, whatever clock
    readings came with the messages. *)
Theorem start_times_nonnegative decodeAudioData (events : list Event) (s : App) :
  run decodeAudioData initialApp events = Ok s ->
  (0 <= nextStartTimeRef s)%Q
  /\ Forall (fun c => (0 <= startWhen c)%Q) (started (world s)).
Proof.
  intros Hrun.
  assert (H : timesNonNegative s).
  { apply (run_keeps timesNonNegative timesNonNegative_view timesNonNegative_stop
             timesNonNegative_enqueue timesNonNegative_ended
             decodeAudioData events initialApp s Hrun).
    repeat split; [cbn; lra|constructor|constructor]. }
  destruct H as (Hcursor & Hstarted & _). split; assumption.
Qed.

Lemma start_times_nonnegative_witness :
  length (started (world afterPlayedAndInterrupted)) = 3%nat
  /\ (0 <= nextStartTimeRef afterPlayedAndInterrupted)%Q
  /\ Forall (fun c => (0 <= startWhen c)%Q) (started (world afterPlayedAndInterrupted)).
Proof.
  split; [vm_compute; reflexivity|].
  apply (start_times_nonnegative (fun _ => oneSecond) playedAndInterrupted
           afterPlayedAndInterrupted).
  vm_compute. reflexivity.
Defined.

(** X6.  A source that has ended is not stopped by the next
    [stopAllPlayback]: the stop calls it makes are exactly the other live
    sources. *)
Theorem ended_source_not_stopped (source : SourceNode) (s : App) :
  exists stoppedNow,
    stopCalls (world (stopAllPlayback (endedListener source s)))
    = stopCalls (world s) ++ stoppedNow
    /\ ~ In source stoppedNow
    /\ forall other, other <> source ->
                     (In other stoppedNow <-> In other (audioSourcesRef s)).
Proof.
  exists (filter (fun n => negb (Nat.eqb n source)) (audioSourcesRef s)).
  rewrite stopAllPlayback_eq. unfold endedListener. cbn. split; [reflexivity|]. split.
  - intros Hin. apply filter_In in Hin as [_ Hneq].
    now rewrite Nat.eqb_refl in Hneq.
  - intros other Hother. rewrite filter_In. split; [tauto|].
    intros Hin. split; [assumption|].
    apply Bool.negb_true_iff, Nat.eqb_neq. exact Hother.
Qed.

(** ** Transcript reconciler *)

Lemma setLastText_shape (t : string) (prev : list TranscriptEntry) :
  forall updated,
    setLastText t prev = Ok updated ->
    exists init e, prev = init ++ [e]
                   /\ updated = init ++ [mkEntry (speaker e) t (image e)].
Proof.
  induction prev as [|x rest IH]; intros updated H; cbn in H.
  - discriminate.
  - destruct rest as [|x' rest'].
    + injection H as <-. exists [], x. split; reflexivity.
    + destruct (setLastText t (x' :: rest')) as [u|] eqn:Hu; cbn in H; [|discriminate].
      injection H as <-. destruct (IH u eq_refl) as (init & e & Hprev & Hupd).
      exists (x :: init), e. rewrite Hprev, Hupd. split; reflexivity.
Qed.

Lemma commitTurn_continues (s s' : App) :
  commitTurn s = Ok s' -> continues (transcript s) (transcript s').
Proof.
  unfold commitTurn. destruct (mergeBranch s).
  - destruct (setLastText _ _) as [updated|] eqn:Hu; cbn [bind]; [|discriminate].
    intros [= <-]. apply setLastText_shape in Hu as (init & e & Hprev & Hupd).
    right. exists init, e, (trim (userTranscriptionRef s)),
                  (tutorEntries (trim (modelTranscriptionRef s))).
    split; [assumption|].
    unfold finishTurn; cbn. rewrite transcript_appendEntries. cbn.
    rewrite Hupd, <- app_assoc. reflexivity.
  - intros [= <-]. left. eexists.
    unfold finishTurn; cbn. now rewrite transcript_appendEntries.
Qed.

Lemma onmessage_transcript decodeAudioData (currentTime : Q)
  (message : Msg.LiveServerMessage) (s s' : App) :
  onmessage decodeAudioData currentTime message s = Ok s' ->
  transcript s' = transcript s
  \/ exists s3, transcript s3 = transcript s
                /\ closureTranscript s3 = closureTranscript s
                /\ commitTurn s3 = Ok s'.
Proof.
  unfold onmessage. destruct (Msg.serverContent message) as [sc|].
  - destruct (accumulate_frame sc s) as (_ & Ha & Hc & _).
    destruct (interrupt_frame (Msg.interrupted sc) (accumulate sc s)) as (_ & Hi & _).
    cbv zeta in Hi.
    set (s2 := if Msg.interrupted sc then stopAllPlayback (accumulate sc s)
               else accumulate sc s) in *.
    pose proof (audioStep_frame decodeAudioData currentTime (Msg.modelTurn sc) s2) as Hs.
    destruct (audioStep decodeAudioData currentTime (Msg.modelTurn sc) s2) as [s3|];
      cbn [bind]; [|discriminate].
    destruct Hs as (_ & Hs & _).
    assert (E : transcript s3 = transcript s /\ closureTranscript s3 = closureTranscript s)
      by (unfold reconcilerView in Hs, Hi; split; congruence).
    destruct (Msg.turnComplete sc).
    + intros Hc'. right. exists s3. tauto.
    + intros [= <-]. left. tauto.
  - intros [= <-]. now left.
Qed.

Lemma transcript_stopSession_onclose (s : App) : transcript (onclose s) = transcript s.
Proof.
  unfold onclose. rewrite stopAllPlayback_eq. reflexivity.
Qed.

Lemma continues_refl (l : list TranscriptEntry) : continues l l.
Proof.
  left. exists []. now rewrite app_nil_r.
Qed.

(** X7.  The transcript is append-only but for the text of its last entry.
    Whatever event is handled, short of the start of a session, the entries
    before the last stay as they are and where they are, the last keeps its
    speaker and image, and new entries go to the end. *)
Theorem transcript_append_only decodeAudioData (s : App) (e : Event) :
  match step decodeAudioData s e with
  | Ok s' => if startsSession s e then transcript s' = []
             else continues (transcript s) (transcript s')
  | Throw _ => True
  end.
Proof.
  destruct e; cbn [step startsSession].
  - unfold handleToggleSession. destruct (isSessionActive s); cbn [negb].
    + unfold stopBranch, sessionClose.
      destruct (sessionPromiseRef s); apply continues_refl.
    + apply transcript_startBranch.
  - unfold onopen; cbn. destruct (inputAudioContextRef s); [|exact I].
    apply continues_refl.
  - destruct (onmessage decodeAudioData currentTime message s) as [s'|] eqn:H;
      [|exact I].
    apply onmessage_transcript in H as [-> | (s3 & <- & _ & Hc)].
    + apply continues_refl.
    + now apply commitTurn_continues.
  - rewrite (transcript_stopSession_onclose s). apply continues_refl.
  - unfold onerror. rewrite stopAllPlayback_eq. apply continues_refl.
  - left. exists (match sessionPromiseRef s with
                  | Some _ => [imageEntry imageDataUrl] | None => [] end).
    unfold_handlers. split_tests; cbn; rewrite ?app_nil_r; reflexivity.
  - left. exists (match sessionPromiseRef s with
                  | Some _ => [imageEntry imageDataUrl] | None => [] end).
    unfold_handlers. split_tests; cbn; rewrite ?app_nil_r; reflexivity.
  - apply continues_refl.
  - unfold handleToggleSessionWithExport. destruct (isSessionActive s); cbn [negb].
    + unfold_handlers. split_tests; apply continues_refl.
    + apply transcript_startBranch.
  - left.
    exists (if negb (String.prefix "image/" fileType) then []
            else match sessionPromiseRef s, readResult with
                 | Some _, Some url => [imageEntry url]
                 | _, _ => []
                 end).
    unfold_handlers. cbn. split_tests; cbn; rewrite ?app_nil_r; reflexivity.
Qed.

Lemma tutorEntries_wellFormed (t : string) : Forall wellFormedEntry (tutorEntries t).
Proof.
  unfold tutorEntries. destruct (truthy t) eqn:Ht; repeat constructor; cbn; auto.
Qed.

Lemma userEntries_wellFormed (t : string) : Forall wellFormedEntry (userEntries t).
Proof.
  unfold userEntries. destruct (truthy t) eqn:Ht; repeat constructor; cbn; auto;
    discriminate.
Qed.

Lemma imageEntry_wellFormed (url : string) : wellFormedEntry (imageEntry url).
Proof.
  split; cbn; discriminate.
Qed.

Lemma commitTurn_wellFormed (s s' : App) :
  commitTurn s = Ok s' ->
  Forall wellFormedEntry (transcript s) -> Forall wellFormedEntry (transcript s').
Proof.
  unfold commitTurn. destruct (mergeBranch s) eqn:Hm.
  - destruct (setLastText _ _) as [updated|] eqn:Hu; cbn [bind]; [|discriminate].
    intros [= <-] Hwf. unfold finishTurn; cbn. rewrite transcript_appendEntries. cbn.
    apply Forall_app. split; [|apply tutorEntries_wellFormed].
    apply setLastText_shape in Hu as (init & e & Hprev & ->).
    rewrite Hprev in Hwf. apply Forall_app in Hwf as [Hinit He].
    apply Forall_app. split; [assumption|].
    inversion He as [|? ? [He1 He2] _]; subst.
    constructor; [|constructor]. split; cbn; [assumption|].
    intros _. unfold mergeBranch in Hm. now apply andb_prop in Hm.
  - intros [= <-] Hwf. unfold finishTurn; cbn. rewrite transcript_appendEntries.
    apply Forall_app. split; [assumption|]. apply Forall_app.
    split; [apply userEntries_wellFormed|apply tutorEntries_wellFormed].
Qed.

(** What one handled event can do to the transcript: nothing, empty it,
    append an image entry, or commit a turn. *)
Lemma transcript_entries_cases decodeAudioData (s : App) (e : Event) :
  match step decodeAudioData s e with
  | Ok s' =>
      transcript s' = transcript s
      \/ transcript s' = []
      \/ (exists url, transcript s' = transcript s ++ [imageEntry url])
      \/ (exists s3, transcript s3 = transcript s /\ commitTurn s3 = Ok s')
  | Throw _ => True
  end.
Proof.
  destruct e; cbn [step].
  - unfold handleToggleSession. destruct (isSessionActive s).
    + left. unfold stopBranch, sessionClose. now destruct (sessionPromiseRef s).
    + right. left. apply transcript_startBranch.
  - unfold onopen; cbn. destruct (inputAudioContextRef s); [|exact I]. now left.
  - destruct (onmessage decodeAudioData currentTime message s) as [s'|] eqn:H;
      [|exact I].
    apply onmessage_transcript in H as [H | (s3 & H1 & _ & H2)].
    + now left.
    + right. right. right. now exists s3.
  - left. apply transcript_stopSession_onclose.
  - left. unfold onerror. rewrite stopAllPlayback_eq. reflexivity.
  - unfold_handlers. destruct (sessionPromiseRef s); [|now left].
    right. right. left. exists imageDataUrl. split_tests; reflexivity.
  - unfold_handlers. destruct (sessionPromiseRef s); [|now left].
    right. right. left. exists imageDataUrl. split_tests; reflexivity.
  - now left.
  - unfold handleToggleSessionWithExport. destruct (isSessionActive s).
    + left. unfold_handlers. split_tests; reflexivity.
    + right. left. apply transcript_startBranch.
  - unfold_handlers. cbn.
    destruct (negb (String.prefix "image/" fileType)); [now left|].
    destruct (sessionPromiseRef s); [|now left].
    destruct readResult as [url|]; [|now left].
    right. right. left. exists url. split_tests; reflexivity.
Qed.

Lemma step_wellFormed decodeAudioData (s s' : App) (e : Event) :
  step decodeAudioData s e = Ok s' ->
  Forall wellFormedEntry (transcript s) -> Forall wellFormedEntry (transcript s').
Proof.
  intros Hstep Hwf.
  pose proof (transcript_entries_cases decodeAudioData s e) as Hcases.
  rewrite Hstep in Hcases.
  destruct Hcases as [-> | [-> | [(url & ->) | (s3 & Ht & Hc)]]].
  - assumption.
  - constructor.
  - apply Forall_app. split; [assumption|].
    constructor; [apply imageEntry_wellFormed|constructor].
  - apply (commitTurn_wellFormed s3 s' Hc). now rewrite Ht.
Qed.

Lemma run_wellFormed decodeAudioData (events : list Event) :
  forall s s',
    run decodeAudioData s events = Ok s' ->
    Forall wellFormedEntry (transcript s) -> Forall wellFormedEntry (transcript s').
Proof.
  induction events as [|e rest IH]; intros s s' Hrun Hwf; cbn [run] in Hrun.
  - now injection Hrun as <-.
  - destruct (step decodeAudioData s e) as [s1|] eqn:Hstep; [|discriminate].
    cbn [bind] in Hrun. apply (IH s1 s' Hrun).
    now apply (step_wellFormed decodeAudioData s s1 e).
Qed.

(** X8.  In every state reached from the initial one each transcript entry
    is one the handlers make: a TUTOR entry carries no image, and an entry
    without an image has a text that is not empty. *)
Theorem transcript_entries_well_formed decodeAudioData (events : list Event) (s : App) :
  run decodeAudioData initialApp events = Ok s ->
  Forall wellFormedEntry (transcript s).
Proof.
  intros Hrun. apply (run_wellFormed decodeAudioData events initialApp s Hrun).
  constructor.
Qed.

Lemma transcript_entries_well_formed_witness :
  transcript afterSecondSession = [ mkEntry TUTOR "hello" None ]
  /\ Forall wellFormedEntry (transcript afterSecondSession).
Proof.
  split; [reflexivity|].
  apply (transcript_entries_well_formed (fun _ => oneSecond) secondSessionAfterImage).
  vm_compute. reflexivity.
Defined.

Lemma trimStart_whitespace (l : list ascii) :
  forallb isWhiteSpace l = true -> trimStart l = [].
Proof.
  induction l as [|c l IH]; cbn; [reflexivity|].
  intros H. apply andb_prop in H as [Hc Hl]. rewrite Hc. now apply IH.
Qed.

Lemma trim_whitespace (a : string) :
  forallb isWhiteSpace (list_ascii_of_string a) = true -> trim a = EmptyString.
Proof.
  intros H. unfold trim, trimEnd. now rewrite (trimStart_whitespace _ H).
Qed.

(** X9.  A turn that brought nothing but white space commits nothing: the
    commit succeeds, the transcript is as before, both accumulators are
    emptied and the status is LISTENING. *)
Theorem whitespace_turn_commits_nothing (s : App) :
  forallb isWhiteSpace (list_ascii_of_string (userTranscriptionRef s)) = true ->
  forallb isWhiteSpace (list_ascii_of_string (modelTranscriptionRef s)) = true ->
  exists s',
    commitTurn s = Ok s'
    /\ transcript s' = transcript s
    /\ userTranscriptionRef s' = EmptyString
    /\ modelTranscriptionRef s' = EmptyString
    /\ status s' = LISTENING.
Proof.
  intros Hu Hm. unfold commitTurn, mergeBranch.
  rewrite (trim_whitespace _ Hu), (trim_whitespace _ Hm). cbn.
  rewrite andb_false_r. eexists. split; [reflexivity|].
  unfold finishTurn; cbn. repeat split.
Qed.

Lemma whitespace_turn_commits_nothing_witness :
  exists s',
    commitTurn silentTurn = Ok s'
    /\ transcript s' = transcript silentTurn
    /\ userTranscriptionRef s' = EmptyString
    /\ modelTranscriptionRef s' = EmptyString
    /\ status s' = LISTENING.
Proof.
  apply (whitespace_turn_commits_nothing silentTurn); reflexivity.
Defined.

Lemma run_app decodeAudioData (events later : list Event) :
  forall s,
    run decodeAudioData s (events ++ later)
    = (s1 <- run decodeAudioData s events ;; run decodeAudioData s1 later).
Proof.
  induction events as [|e rest IH]; intros s; cbn.
  - reflexivity.
  - destruct (step decodeAudioData s e); cbn; [apply IH|reflexivity].
Qed.

Lemma run_userFragments decodeAudioData (currentTime : Q) (fragments : list string) :
  forall s, exists s1,
    run decodeAudioData s (userFragments currentTime fragments) = Ok s1
    /\ userTranscriptionRef s1 = (userTranscriptionRef s ++ joined fragments)%string
    /\ modelTranscriptionRef s1 = modelTranscriptionRef s
    /\ transcript s1 = transcript s
    /\ closureTranscript s1 = closureTranscript s.
Proof.
  induction fragments as [|f rest IH]; intros s; cbn [userFragments map run joined fold_right].
  - exists s. rewrite append_empty_r. repeat split.
  - change (step decodeAudioData s
              (EvMessage currentTime (transcriptionMessage (Some f) None false)))
      with (Ok (setStatus THINKING
                  (putUserTranscription (userTranscriptionRef s ++ f)%string s))).
    cbn [bind].
    destruct (IH (setStatus THINKING
                    (putUserTranscription (userTranscriptionRef s ++ f)%string s)))
      as (s1 & Hrun & Hu & Hm & Ht & Hc).
    exists s1. split; [exact Hrun|]. cbn in Hu, Hm, Ht, Hc.
    rewrite Hu, append_assoc. repeat split; assumption.
Qed.

(** X10.  The fragments of a turn are committed as one entry.  When the
    user's speech arrives in fragments, the last of them with the
    [turnComplete] flag, and the closure holds no image-only entry, the
    commit appends one USER entry whose text is what was pending and the
    fragments, in arrival order with nothing in between, trimmed as a whole
    (none if that is empty), then the tutor entry for the pending tutor
    text. *)
Theorem fragments_commit_as_one decodeAudioData (currentTime : Q)
  (fragments : list string) (last : string) (s : App) :
  imageOnlyUserEntry (lastEntry (closureTranscript s)) = false ->
  exists s',
    run decodeAudioData s
      (userFragments currentTime fragments
       ++ [EvMessage currentTime (transcriptionMessage (Some last) None true)])
    = Ok s'
    /\ transcript s'
       = transcript s
         ++ userEntries (trim (userTranscriptionRef s ++ joined fragments ++ last)%string)
         ++ tutorEntries (trim (modelTranscriptionRef s))
    /\ userTranscriptionRef s' = EmptyString
    /\ modelTranscriptionRef s' = EmptyString.
Proof.
  intros Hclosure.
  destruct (run_userFragments decodeAudioData currentTime fragments s)
    as (s1 & Hrun & Hu & Hm & Ht & Hc).
  rewrite run_app, Hrun. cbn [bind run].
  change (step decodeAudioData s1
            (EvMessage currentTime (transcriptionMessage (Some last) None true)))
    with (commitTurn (setStatus THINKING
                        (putUserTranscription (userTranscriptionRef s1 ++ last)%string s1))).
  unfold commitTurn, mergeBranch. cbn [closureTranscript setStatus putUserTranscription].
  rewrite Hc, Hclosure. cbn [andb bind].
  eexists. split; [reflexivity|].
  unfold finishTurn. cbn. rewrite transcript_appendEntries. cbn.
  rewrite Ht, Hu, Hm, append_assoc. repeat split.
Qed.

Lemma fragments_commit_as_one_witness :
  exists s',
    run (fun _ => oneSecond) connectedApp
      (userFragments 0 ["2"; "+"]%string
       ++ [EvMessage 0 (transcriptionMessage (Some "2 "%string) None true)])
    = Ok s'
    /\ transcript s' = [ mkEntry USER "2+2" None ].
Proof.
  destruct (fragments_commit_as_one (fun _ => oneSecond) 0 ["2"; "+"]%string
              "2 "%string connectedApp eq_refl) as (s' & Hrun & Ht & _).
  exists s'. split; [exact Hrun|]. rewrite Ht. reflexivity.
Defined.

(** ** Session lifecycle *)

Lemma onclose_onerror (s : App) :
  onclose (onerror s) = alert networkErrorNotice (onclose s).
Proof.
  unfold onclose, onerror. rewrite !stopAllPlayback_eq.
  destruct s as [act st tr h ictx octx ms sp u mo q cur src cl w]; destruct w.
  cbn. unfold withStops; cbn. rewrite !app_nil_r. reflexivity.
Qed.

(** X11.  An error alone does not release the session: [onerror] marks the
    session inactive and idle, stops all playback and raises its notice, but
    leaves the session handle and the capture objects as they are.  Only
    [onclose] releases them: after an error and a close the session is at
    rest, in the state a close alone ends in, the notice apart. *)
Theorem error_releases_nothing_until_close (s : App) :
  (status (onerror s) = IDLE
   /\ isSessionActive (onerror s) = false
   /\ sessionPromiseRef (onerror s) = sessionPromiseRef s
   /\ captureView (onerror s) = captureView s
   /\ stopCalls (world (onerror s)) = stopCalls (world s) ++ audioSourcesRef s
   /\ alerts (world (onerror s)) = alerts (world s) ++ [networkErrorNotice])
  /\ idle (onclose (onerror s))
  /\ withoutAlerts (onclose (onerror s)) = withoutAlerts (onclose s).
Proof.
  split.
  - unfold onerror. rewrite stopAllPlayback_eq. cbn. repeat split.
  - rewrite onclose_onerror. split.
    + apply idle_alert, onclose_idle.
    + apply withoutAlerts_alert.
Qed.

(** ** Capture *)

Lemma sentMedia_onclose (s : App) : sentMedia (world (onclose s)) = sentMedia (world s).
Proof.
  unfold onclose. rewrite stopAllPlayback_eq. reflexivity.
Qed.

Lemma sentMedia_onerror (s : App) : sentMedia (world (onerror s)) = sentMedia (world s).
Proof.
  unfold onerror. rewrite stopAllPlayback_eq. reflexivity.
Qed.

(** X12.  Teardown wins over capture.  A frame that the script processor
    delivers after [onclose] is dropped: the state does not change.  While a
    session handle is set the frame is forwarded, and nothing else changes;
    that is still so after an error that no close has followed. *)
Theorem capture_stops_at_close (pcmBlob : Msg.Blob) (s : App) :
  onaudioprocess pcmBlob (onclose s) = onclose s
  /\ (sessionView (onaudioprocess pcmBlob s) = sessionView s
      /\ status (onaudioprocess pcmBlob s) = status s
      /\ reconcilerView (onaudioprocess pcmBlob s) = reconcilerView s
      /\ schedulerView (onaudioprocess pcmBlob s) = schedulerView s
      /\ alerts (world (onaudioprocess pcmBlob s)) = alerts (world s)
      /\ closeCalls (world (onaudioprocess pcmBlob s)) = closeCalls (world s))
  /\ match sessionPromiseRef s with
     | None => onaudioprocess pcmBlob s = s
     | Some _ =>
         sentMedia (world (onaudioprocess pcmBlob s)) = sentMedia (world s) ++ [pcmBlob]
         /\ sentMedia (world (onaudioprocess pcmBlob (onerror s)))
            = sentMedia (world s) ++ [pcmBlob]
     end.
Proof.
  split; [|split].
  - unfold onaudioprocess, onclose. rewrite stopAllPlayback_eq. reflexivity.
  - unfold onaudioprocess. destruct (sessionPromiseRef s); repeat split.
  - destruct (sessionPromiseRef s) eqn:Hh.
    + split; [unfold onaudioprocess; rewrite Hh; reflexivity|].
      unfold onaudioprocess, onerror. rewrite stopAllPlayback_eq. cbn. rewrite Hh.
      reflexivity.
    + unfold onaudioprocess. rewrite Hh. reflexivity.
Qed.

(** ** [onmessage] *)

Lemma commitTurn_sessionView (s s' : App) :
  commitTurn s = Ok s' -> sessionView s' = sessionView s.
Proof.
  unfold commitTurn. destruct (mergeBranch s).
  - destruct (setLastText _ _); cbn; [|discriminate].
    intros [= <-]. unfold_handlers. split_tests; reflexivity.
  - intros [= <-]. unfold_handlers. split_tests; reflexivity.
Qed.

(** X13.  Handling a server message never raises a notice, sends media or
    asks the session to close, and leaves the session handle, the activity
    flag, the capture objects and the closure of the callbacks as they
    are. *)
Theorem onmessage_keeps_session decodeAudioData (currentTime : Q)
  (message : Msg.LiveServerMessage) (s : App) :
  match onmessage decodeAudioData currentTime message s with
  | Ok s' =>
      sessionView s' = sessionView s
      /\ closureTranscript s' = closureTranscript s
      /\ alerts (world s') = alerts (world s)
      /\ sentMedia (world s') = sentMedia (world s)
      /\ closeCalls (world s') = closeCalls (world s)
  | Throw _ => True
  end.
Proof.
  unfold onmessage. destruct (Msg.serverContent message) as [sc|]; [|repeat split].
  destruct (accumulate_frame sc s) as (Ha1 & _ & Ha3 & Ha4 & _).
  assert (Hi : sessionView (if Msg.interrupted sc then stopAllPlayback (accumulate sc s)
                            else accumulate sc s) = sessionView s
               /\ closureTranscript (if Msg.interrupted sc
                                     then stopAllPlayback (accumulate sc s)
                                     else accumulate sc s) = closureTranscript s
               /\ alerts (world (if Msg.interrupted sc
                                 then stopAllPlayback (accumulate sc s)
                                 else accumulate sc s)) = alerts (world s)
               /\ sentMedia (world (if Msg.interrupted sc
                                    then stopAllPlayback (accumulate sc s)
                                    else accumulate sc s)) = sentMedia (world s)
               /\ closeCalls (world (if Msg.interrupted sc
                                     then stopAllPlayback (accumulate sc s)
                                     else accumulate sc s)) = closeCalls (world s)).
  { destruct (Msg.interrupted sc); [rewrite stopAllPlayback_eq; cbn|];
      rewrite ?Ha4; repeat split; assumption. }
  set (s2 := if Msg.interrupted sc then stopAllPlayback (accumulate sc s)
             else accumulate sc s) in *.
  destruct Hi as (Hi1 & Hi2 & Hi3 & Hi4 & Hi5).
  pose proof (audioStep_frame decodeAudioData currentTime (Msg.modelTurn sc) s2) as Hs.
  destruct (audioStep decodeAudioData currentTime (Msg.modelTurn sc) s2) as [s3|];
    cbn [bind]; [|exact I].
  destruct Hs as (Hs1 & Hs2 & Hs3 & _).
  assert (H3 : sessionView s3 = sessionView s
               /\ closureTranscript s3 = closureTranscript s
               /\ alerts (world s3) = alerts (world s)
               /\ sentMedia (world s3) = sentMedia (world s)
               /\ closeCalls (world s3) = closeCalls (world s)).
  { unfold reconcilerView, outsideView in Hs2, Hs3.
    injection Hs2 as _ Hc _ _. injection Hs3 as Hal _ Hse Hcl.
    repeat split; congruence. }
  destruct (Msg.turnComplete sc); [|exact H3].
  destruct (commitTurn s3) as [s4|] eqn:Hc; [|exact I].
  pose proof (commitTurn_sessionView s3 s4 Hc) as Hview.
  apply commitTurn_frame in Hc.
  destruct Hc as (_ & _ & _ & _ & _ & Hcl & Hw).
  destruct H3 as (H31 & H32 & H33 & H34 & H35).
  rewrite Hw, Hcl, Hview. repeat split; assumption.
Qed.

(** ** Sending an image *)

Lemma afterComma_dataUrl (head payload : string) :
  commaFree head = true -> afterComma (dataUrl head payload) = Some payload.
Proof.
  unfold dataUrl. induction head as [|c head IH]; cbn.
  - intros _. reflexivity.
  - intros H. apply andb_prop in H as [Hc Hrest].
    apply Bool.negb_true_iff in Hc. rewrite Hc. now apply IH.
Qed.

Lemma upToComma_commaFree (payload : string) :
  commaFree payload = true -> upToComma payload = payload.
Proof.
  induction payload as [|c payload IH]; cbn; [reflexivity|].
  intros H. apply andb_prop in H as [Hc Hrest].
  apply Bool.negb_true_iff in Hc. rewrite Hc. now rewrite IH.
Qed.

(** X14.  What is transmitted is the payload of the data URL.  For a URL
    made of a head, a comma and a non-empty payload, neither holding a comma,
    [handleSendDrawing] with a session handle and no send error sends exactly
    the payload, as [image/png], raises no notice, and appends the entry with
    the whole URL as its image. *)
Theorem drawing_payload_is_sent (head payload : string) (s : App) :
  commaFree head = true ->
  commaFree payload = true ->
  truthy payload = true ->
  sessionPromiseRef s <> None ->
  sentMedia (world (handleSendDrawing (dataUrl head payload) false s))
  = sentMedia (world s) ++ [Msg.mkBlob (Some payload) (Some "image/png"%string)]
  /\ alerts (world (handleSendDrawing (dataUrl head payload) false s)) = alerts (world s)
  /\ transcript (handleSendDrawing (dataUrl head payload) false s)
     = transcript s ++ [mkEntry USER EmptyString (Some (dataUrl head payload))].
Proof.
  intros Hhead Hpayload Htruthy Hsession.
  unfold handleSendDrawing, sendImageData, splitAt1.
  destruct (sessionPromiseRef s); [|contradiction].
  rewrite (afterComma_dataUrl head payload Hhead). cbn [option_map].
  rewrite (upToComma_commaFree payload Hpayload), Htruthy.
  cbn. repeat split.
Qed.

Lemma drawing_payload_is_sent_witness :
  sentMedia (world (handleSendDrawing (dataUrl "data:image/png;base64" "iVBORw0KGgo=")
                      false connectedApp))
  = [Msg.mkBlob (Some "iVBORw0KGgo="%string) (Some "image/png"%string)].
Proof.
  apply (drawing_payload_is_sent "data:image/png;base64" "iVBORw0KGgo=" connectedApp);
    [reflexivity|reflexivity|reflexivity|discriminate].
Defined.

(** X15.  A file read that finishes after the session has closed still adds
    its image entry to the transcript; nothing is sent and the send error
    notice is raised. *)
Theorem late_file_read_is_logged_not_sent (fileType imageDataUrl base64Data : string)
  (sendThrows : bool) (s : App) :
  let s' := readerOnload fileType imageDataUrl base64Data sendThrows (onclose s) in
  transcript s' = transcript s ++ [mkEntry USER EmptyString (Some imageDataUrl)]
  /\ sentMedia (world s') = sentMedia (world s)
  /\ alerts (world s') = alerts (world s) ++ ["There was an error sending the image."%string]
  /\ sessionPromiseRef s' = None
  /\ status s' = IDLE.
Proof.
  unfold readerOnload, onclose. rewrite stopAllPlayback_eq. cbn. repeat split.
Qed.

(** ** The image cropper *)

Section CropperFacts.

Import Cropper.

Lemma within_iff (lo v hi : Q) : within lo v hi = true <-> lo <= v <= hi.
Proof.
  unfold within. rewrite andb_true_iff, !Qle_bool_iff. tauto.
Qed.

Lemma less_true (a b : Q) : less a b = true -> a < b.
Proof.
  unfold less. intros H. apply Bool.negb_true_iff in H.
  assert (~ b <= a) by (rewrite <- Qle_bool_iff; congruence). lra.
Qed.

Lemma less_false (a b : Q) : less a b = false -> b <= a.
Proof.
  unfold less. intros H. apply Bool.negb_false_iff in H. now apply Qle_bool_iff.
Qed.

Lemma hitsHandle_iff (c : Crop) (px py : Q) (h : Handle) :
  hitsHandle c px py h = true <-> nearHandle c h px py.
Proof.
  unfold hitsHandle, nearHandle. rewrite andb_true_iff, !within_iff. tauto.
Qed.

Lemma getHandleAtPosition_find (c : Crop) (px py : Q) :
  getHandleAtPosition c px py = find (hitsHandle c px py) hitOrder.
Proof.
  reflexivity.
Qed.

(** X16.  The hit test agrees with what [draw] paints.  The handle that
    [getHandleAtPosition] returns has the point within [HANDLE_SIZE] of the
    centre of its painted square on both axes; when it returns none, the
    point is that near to no handle. *)
Theorem getHandleAtPosition_near (c : Crop) (px py : Q) :
  match getHandleAtPosition c px py with
  | Some h => nearHandle c h px py
  | None => forall h, ~ nearHandle c h px py
  end.
Proof.
  rewrite getHandleAtPosition_find.
  destruct (find (hitsHandle c px py) hitOrder) as [h|] eqn:Hfind.
  - apply find_some in Hfind as [_ Hhit]. now apply hitsHandle_iff.
  - intros h Hnear. apply hitsHandle_iff in Hnear.
    pose proof (find_none _ _ Hfind h) as Hnone.
    rewrite Hnear in Hnone. discriminate Hnone.
    destruct h; cbn; tauto.
Qed.

Ltac halves :=
  unfold Qdiv in *; change (/ 2) with (1 # 2) in *.

Ltac miss_or_hit :=
  match goal with
  | |- context [hitsHandle ?c ?px ?py ?h] =>
      let E := fresh "E" in
      destruct (hitsHandle c px py h) eqn:E;
      [apply hitsHandle_iff in E; unfold nearHandle, anchor, HANDLE_SIZE in E;
       cbn [fst snd] in E; halves; try (exfalso; lra)
      |try (exfalso; apply Bool.not_true_iff_false in E; apply E;
            apply hitsHandle_iff; unfold nearHandle, anchor, HANDLE_SIZE;
            cbn [fst snd]; halves; repeat split; lra)]
  end.

(** X17.  Pressing on a painted handle grabs that handle.  When the crop is
    more than 30 wide and high, a point on the square [draw] paints for a
    handle makes [getHandleAtPosition] return that very handle. *)
Theorem painted_handle_is_grabbed (c : Crop) (h : Handle) (px py : Q) :
  30 < width c -> 30 < height c ->
  onPaintedHandle c h px py ->
  getHandleAtPosition c px py = Some h.
Proof.
  intros Hw Hh Hon. rewrite getHandleAtPosition_find.
  unfold onPaintedHandle, HANDLE_SIZE in Hon.
  destruct h; unfold anchor in Hon; cbn [fst snd] in Hon; halves;
    unfold hitOrder; cbn [find];
    repeat (miss_or_hit; try reflexivity).
Qed.

Lemma painted_handle_is_grabbed_witness :
  getHandleAtPosition sampleCrop 203 47 = Some TopMiddle.
Proof.
  apply (painted_handle_is_grabbed sampleCrop TopMiddle 203 47).
  - reflexivity.
  - reflexivity.
  - unfold onPaintedHandle, Qle; cbn. lia.
Defined.

End CropperFacts.

Section CropperMoves.

Import Cropper.

Ltac crop_fields :=
  cbn [x y width height setX setY setWidth setHeight fst snd
       includesTop includesBottom includesLeft includesRight] in *.

Ltac split_less :=
  match goal with
  | |- context [less ?a ?b] =>
      lazymatch a with
      | context [less _ _] => fail
      | _ =>
          lazymatch b with
          | context [less _ _] => fail
          | _ =>
              let E := fresh "E" in
              destruct (less a b) eqn:E; [apply less_true in E|apply less_false in E]
          end
      end
  end.

Ltac name_minmax :=
  repeat match goal with
         | |- context [Qmax ?a ?b] =>
             pose proof (Q.max_spec a b); set (Qmax a b) in *
         | |- context [Qmin ?a ?b] =>
             pose proof (Q.min_spec a b); set (Qmin a b) in *
         | H : context [Qmax ?a ?b] |- _ =>
             pose proof (Q.max_spec a b); set (Qmax a b) in *
         | H : context [Qmin ?a ?b] |- _ =>
             pose proof (Q.min_spec a b); set (Qmin a b) in *
         end.

Ltac by_cases :=
  repeat match goal with
         | H : _ /\ _ \/ _ /\ _ |- _ => destruct H as [[? ?]|[? ?]]
         end;
  repeat split; first [reflexivity|lra].

(** X18.  Dragging the crop moves it without resizing it and never off the
    canvas: when the crop fits the canvas its size is unchanged and it ends
    inside the canvas, and it follows the pointer exactly whenever that
    keeps it inside. *)
Theorem move_keeps_size_and_stays_inside (cw ch : Q) (pos : Q * Q) (px py : Q) (c : Crop) :
  width c <= cw -> height c <= ch ->
  let c' := moveCrop cw ch pos px py c in
  width c' = width c /\ height c' = height c
  /\ 0 <= x c' /\ x c' + width c' <= cw
  /\ 0 <= y c' /\ y c' + height c' <= ch
  /\ (0 <= px - fst pos <= cw - width c -> x c' == px - fst pos)
  /\ (0 <= py - snd pos <= ch - height c -> y c' == py - snd pos).
Proof.
  intros Hw Hh c'. subst c'. unfold moveCrop. crop_fields.
  name_minmax.
  repeat match goal with
         | H : _ /\ _ \/ _ /\ _ |- _ => destruct H as [[? ?]|[? ?]]
         end;
    repeat split; try reflexivity; try lra; intros [? ?]; lra.
Qed.

Lemma move_keeps_size_and_stays_inside_witness :
  let c' := moveCrop 640 480 (30, 20) 700 (-10) sampleCrop in
  width c' = 200 /\ height c' = 120
  /\ 0 <= x c' /\ x c' + width c' <= 640
  /\ 0 <= y c' /\ y c' + height c' <= 480.
Proof.
  destruct (move_keeps_size_and_stays_inside 640 480 (30, 20) 700 (-10) sampleCrop)
    as (H1 & H2 & H3 & H4 & H5 & H6 & _).
  - unfold Qle; cbn; lia.
  - unfold Qle; cbn; lia.
  - repeat split; assumption.
Defined.

Lemma resizeCrop_axes (cw ch : Q) (h : Handle) (startCrop : Crop) (px py : Q) (c : Crop) :
  let c' := resizeCrop cw ch h startCrop px py c in
  let horizontal := resizeAxis cw (includesLeft h) (includesRight h)
                      (x startCrop) (width startCrop) px (x c) (width c) in
  let vertical := resizeAxis ch (includesTop h) (includesBottom h)
                    (y startCrop) (height startCrop) py (y c) (height c) in
  x c' = fst horizontal /\ width c' = snd horizontal
  /\ y c' = fst vertical /\ height c' = snd vertical.
Proof.
  unfold resizeCrop, resizeAxis.
  destruct h; crop_fields; cbv zeta; crop_fields;
    repeat (split_less; crop_fields); repeat split.
Qed.

Lemma resizeAxis_valid (limit : Q) (lowHandle highHandle : bool)
  (startPos startLen p pos len : Q) :
  lowHandle && highHandle = false ->
  0 <= pos -> pos + len <= limit -> MIN_CROP_SIZE <= len ->
  0 <= startPos -> startPos + startLen <= limit -> MIN_CROP_SIZE <= startLen ->
  let r := resizeAxis limit lowHandle highHandle startPos startLen p pos len in
  0 <= fst r /\ fst r + snd r <= limit /\ MIN_CROP_SIZE <= snd r
  /\ (if lowHandle then fst r + snd r == startPos + startLen else fst r = pos).
Proof.
  intros Hboth Hpos Hend Hlen Spos Send Slen r. subst r.
  unfold resizeAxis, MIN_CROP_SIZE in *.
  destruct lowHandle, highHandle; try discriminate Hboth; cbn [fst snd];
    repeat (split_less; cbn [fst snd] in *);
    name_minmax; by_cases.
Qed.



End CropperMoves.

Section CropperGestures.

Import Cropper.

Lemma moveCrop_valid (cw ch : Q) (pos : Q * Q) (px py : Q) (c : Crop) :
  valid cw ch c -> valid cw ch (moveCrop cw ch pos px py c).
Proof.
  unfold valid, moveCrop, MIN_CROP_SIZE. cbn [x y width height setX setY fst snd].
  intros (Hx & Hy & Hr & Hb & Hw & Hh).
  pose proof (Q.max_spec 0 (Qmin (px - fst pos) (cw - width c))) as M1.
  pose proof (Q.min_spec (px - fst pos) (cw - width c)) as M2.
  pose proof (Q.max_spec 0 (Qmin (py - snd pos) (ch - height c))) as M3.
  pose proof (Q.min_spec (py - snd pos) (ch - height c)) as M4.
  repeat split; try assumption.
  - destruct M1 as [[? ?]|[? ?]]; lra.
  - destruct M3 as [[? ?]|[? ?]]; lra.
  - destruct M1 as [[? ?]|[? ?]], M2 as [[? ?]|[? ?]]; lra.
  - destruct M3 as [[? ?]|[? ?]], M4 as [[? ?]|[? ?]]; lra.
Qed.

Lemma resizeCrop_valid (cw ch : Q) (h : Handle) (startCrop : Crop) (px py : Q) (c : Crop) :
  valid cw ch c -> valid cw ch startCrop ->
  valid cw ch (resizeCrop cw ch h startCrop px py c).
Proof.
  intros Hc Hs. unfold valid in *.
  destruct Hc as (Hx & Hy & Hr & Hb & Hw & Hh).
  destruct Hs as (Sx & Sy & Sr & Sb & Sw & Sh).
  destruct (resizeCrop_axes cw ch h startCrop px py c) as (Ex & Ew & Ey & Eh).
  rewrite Ex, Ew, Ey, Eh.
  destruct (resizeAxis_valid cw (includesLeft h) (includesRight h)
              (x startCrop) (width startCrop) px (x c) (width c))
    as (X1 & X2 & X3 & _); try assumption; [now destruct h|].
  destruct (resizeAxis_valid ch (includesTop h) (includesBottom h)
              (y startCrop) (height startCrop) py (y c) (height c))
    as (Y1 & Y2 & Y3 & _); try assumption; [now destruct h|].
  repeat split; assumption.
Qed.

Lemma handle_steady (image : Image) (c : Cropper) (g : Gesture) :
  steadyCropper image c -> steadyCropper image (handle c g).
Proof.
  unfold steadyCropper. intros (Himage & Hw & Hh & Hcrop & Hstart).
  destruct g as [px py|px py|]; cbn [handle].
  - unfold handleInteractionStart.
    destruct (getHandleAtPosition (crop c) px py);
      [|destruct (within _ _ _ && within _ _ _)];
      cbn [imageRef crop action dragStartPos dragStartCropRef canvasWidth canvasHeight];
      repeat (split; [assumption|]); right; assumption.
  - unfold handleInteractionMove.
    destruct (action c) as [act|] eqn:Hact;
      [|repeat (split; [assumption|]); left; exact Hact].
    destruct (dragStartCropRef c) as [startCrop|] eqn:Href;
      [|repeat (split; [assumption|]); right; rewrite Href; exact I].
    destruct Hstart as [Hnone|Hstart]; [discriminate Hnone|].
    unfold draw.
    cbn [imageRef crop action dragStartPos dragStartCropRef canvasWidth canvasHeight].
    rewrite Himage.
    cbn [imageRef crop action dragStartPos dragStartCropRef canvasWidth canvasHeight].
    rewrite <- Hw, <- Hh.
    split; [reflexivity|]. split; [reflexivity|]. split; [reflexivity|].
    split; [|right; assumption].
    destruct act as [|h]; [now apply moveCrop_valid|now apply resizeCrop_valid].
  - cbn [handleInteractionEnd imageRef crop action dragStartPos dragStartCropRef
           canvasWidth canvasHeight].
    repeat (split; [assumption|]). left. reflexivity.
Qed.

Lemma gestures_steady (image : Image) (gestures : list Gesture) :
  forall c, steadyCropper image c -> steadyCropper image (fold_left handle gestures c).
Proof.
  induction gestures as [|g rest IH]; intros c Hc; cbn [fold_left].
  - assumption.
  - apply IH. now apply handle_steady.
Qed.



(** The proviso is needed.  A press on the top-left corner of the canvas
    before the image has loaded sets a resize action that begins with the
    empty crop; [image.onload] leaves both in place, and the first drag after
    the load collapses the crop, so that [handleFinalCrop] hands on
    nothing. *)
Lemma drag_across_load_collapses_crop :
  action (handle (mounted 300 150) (Press 5 5)) = Some (Resize TopLeft)
  /\ width (crop dragAcrossLoad) == 0
  /\ height (crop dragAcrossLoad) == 0
  /\ handleFinalCrop dragAcrossLoad = None.
Proof.
  split; [reflexivity|]. split; [reflexivity|]. split; reflexivity.
Qed.

End CropperGestures.
